(** * Permission reconciliation and the ZooKeeper serving graph of vitess

    A shallow embedding of
      - go/vt/mysqlctl/proto/permissions.go  (module [proto])
      - go/vt/zktopo/serving_graph.go        (module [zktopo])
    together with the pieces of their collaborators that the code calls:
    Go's byte-wise string order and [sort.Strings], [hash/crc64], the
    [concurrency] error recorders and the ZooKeeper connection.

    Part I holds the definitions: the code, then the vocabulary in which
    its properties are stated.  Part II holds the properties, module by
    module ([GoStringFacts], [ConcurrencyFacts], [Crc64Facts],
    [ProtoFacts], [ZktopoFacts]).

    Conventions.  A function that can fault at run time (an index past
    the end of a slice) returns an [option], [None] being the fault; a
    loop whose bound is not structural carries an iteration budget and
    returns [None] when the budget is exhausted, and is proved to return
    within its budget.  Go's [(value, error)] pairs are kept as pairs, a
    nil error being [None]. *)

From Stdlib Require Import ZArith String Ascii List Sorted Permutation Lia.
From Stdlib Require OrderedTypeEx.
From stdpp Require Import base option list strings gmap sorting pretty.

Local Open Scope string_scope.
Local Open Scope list_scope.
Local Open Scope stdpp_scope.
Local Open Scope nat_scope.

(** [length] is the length of a list throughout; the length of a string
    is written [String.length]. *)
Abbreviation length := List.length.

(** * Part I: the embedding *)

(** ** Go strings *)

Module GoString.

(** The one-character string holding a line feed. *)
Definition nl : string := String (ascii_of_nat 10) EmptyString.

(** Go compares strings byte by byte: [s < t]. *)
Definition lt (s t : string) : Prop := String.ltb s t = true.

(** [s <= t] on Go strings is stdpp's [String.le], a total order. *)
Abbreviation le := String.le.

(** The concatenation of a list of strings. *)
Definition concat (ss : list string) : string := foldr String.append "" ss.

(** [sort.Strings]: sorts a slice of strings in increasing order.  Any
    sorting algorithm returns the same slice, see [sorted_unique]. *)
Definition sort_Strings (si : list string) : list string := merge_sort le si.

End GoString.

(** ** Go errors and results *)

(** The values of Go's [error] interface that the two files create or
    compare against.  A nil error is [None : option error]. *)
Inductive error : Type :=
  | Errorf (msg : string)              (* fmt.Errorf: a fresh error *)
  | json_error (msg : string)          (* failure of encoding/json *)
  | zookeeper_ErrNoNode
  | zookeeper_ErrNodeExists
  | zookeeper_ErrNotEmpty
  | zookeeper_ErrBadVersion
  | zookeeper_ErrConnectionClosed
  | topo_ErrNoNode.

#[global] Instance error_eq_dec : EqDecision error.
Proof. solve_decision. Defined.

(** [err.Error()]: the message of an error. *)
Definition Error (e : error) : string :=
  match e with
  | Errorf msg => msg
  | json_error msg => msg
  | zookeeper_ErrNoNode => "zk: node does not exist"
  | zookeeper_ErrNodeExists => "zk: node already exists"
  | zookeeper_ErrNotEmpty => "zk: node has children"
  | zookeeper_ErrBadVersion => "zk: version conflict"
  | zookeeper_ErrConnectionClosed => "zk: connection closed"
  | topo_ErrNoNode => "node doesn't exist"
  end.

(** A Go pair [(T, error)] of which exactly one half is meaningful. *)
Inductive result (T : Type) : Type :=
  | Ok (v : T)
  | Err (e : error).
Arguments Ok {T} v.
Arguments Err {T} e.

(** ** package concurrency: error recorders *)

Module concurrency.

(** The [ErrorRecorder] interface as the reconciler uses it: one method,
    [RecordError(err)], acting on the recorder's state. *)
Class ErrorRecorder (R : Type) := RecordError : option error → R → R.

(** Modelled from the spec: [AllErrorRecorder], the private collector of
    [DiffPermissionsToArray] (go/vt/concurrency, not part of the two
    files).  It keeps every recorded non-nil error in order,
    [HasErrors] tells whether any was recorded and [ErrorStrings]
    yields their messages. *)
Record AllErrorRecorder := { Errors : list error }.

#[global] Instance AllErrorRecorder_RecordError : ErrorRecorder AllErrorRecorder :=
  λ err aer,
    match err with
    | None => aer
    | Some e => {| Errors := Errors aer ++ [e] |}
    end.

Definition HasErrors (aer : AllErrorRecorder) : bool :=
  bool_decide (0 < length (Errors aer)).

Definition ErrorStrings (aer : AllErrorRecorder) : list string :=
  Error <$> Errors aer.

(** Feeding a sequence of errors to a recorder, one call each. *)
Definition record_all `{ErrorRecorder R} (errs : list error) (er : R) : R :=
  foldl (λ er e, RecordError (Some e) er) er errs.

End concurrency.

(** ** package hash/crc64 *)

Module crc64.

Local Open Scope Z_scope.

(** [uint64] arithmetic: values are integers in [0, 2^64). *)
Definition mask64 : Z := 2 ^ 64 - 1.

(** The ISO polynomial, in reversed notation. *)
Definition ISO : Z := 0xD800000000000000.

(** One step of the bitwise division. *)
Definition shift_step (poly crc : Z) : Z :=
  if Z.eqb (Z.land crc 1) 1 then Z.lxor (Z.shiftr crc 1) poly
  else Z.shiftr crc 1.

(** [MakeTable(poly)]: the 256 entries of the lookup table. *)
Definition MakeTable (poly : Z) : list Z :=
  map (λ i : nat, Nat.iter 8 (shift_step poly) (Z.of_nat i)) (seq 0 256).

(** [tab[i]]. *)
Definition at_index (tab : list Z) (i : Z) : Z := nth (Z.to_nat i) tab 0.

(** One byte of [update]: [crc = tab[byte(crc)^v] ^ (crc >> 8)]. *)
Definition update_byte (tab : list Z) (crc : Z) (v : ascii) : Z :=
  Z.lxor (at_index tab (Z.lxor (Z.land crc 255) (Z.of_N (N_of_ascii v))))
         (Z.shiftr crc 8).

(** [update(crc, tab, p)]. *)
Definition update (crc : Z) (tab : list Z) (p : list ascii) : Z :=
  Z.lxor (fold_left (update_byte tab) p (Z.lxor crc mask64)) mask64.

(** [Checksum(data, tab)]. *)
Definition Checksum (data : list ascii) (tab : list Z) : Z := update 0 tab data.

(** A [uint64] value. *)
Definition is_uint64 (x : Z) : Prop := 0 <= x < 2 ^ 64.

End crc64.

(** ** The inputs of entry construction *)

Module query.
(** [query.Field]: only its [Name] is read. *)
Record Field := { Name : string }.
End query.

Module sqltypes.
(** Modelled from the spec: a [sqltypes.Value] is a stringifiable scalar
    and the constructors consume it only through [String()]; the value
    is represented by that string form. *)
Record Value := { Value_String : string }.
End sqltypes.

(** ** go/vt/mysqlctl/proto/permissions.go *)

Module proto.

Import concurrency.
Import GoString(nl).

(** [var hashTable = crc64.MakeTable(crc64.ISO)] *)
Definition hashTable : list Z := Eval vm_compute in crc64.MakeTable crc64.ISO.

(** The three messages of tabletmanagerdata. *)
Record UserPermission := {
  up_Host : string;
  up_User : string;
  up_PasswordChecksum : Z;
  up_Privileges : gmap string string }.

Record DbPermission := {
  dp_Host : string;
  dp_Db : string;
  dp_User : string;
  dp_Privileges : gmap string string }.

Record HostPermission := {
  hp_Host : string;
  hp_Db : string;
  hp_Privileges : gmap string string }.

Record Permissions := {
  UserPermissions : list UserPermission;
  DbPermissions : list DbPermission;
  HostPermissions : list HostPermission }.

(** [permissionList]: the interface shared by the three kinds.  [Get]
    faults ([None]) outside the slice. *)
Record permissionList := {
  Get : nat → option (string * string);
  Len : nat }.

(** [priv[k]]: reading a Go map yields the zero value for a missing key. *)
Definition index (priv : gmap string string) (k : string) : string :=
  default "" (priv !! k).

(** One order in which [for k := range priv] may visit the keys; Go leaves
    the order unspecified. *)
Definition range_keys (priv : gmap string string) : list string :=
  (map_to_list priv).*1.

(** The body of [printPrivileges] once the keys have been collected into
    [si] in whatever order the map was ranged over. *)
Definition printPrivileges_ranged (si : list string) (priv : gmap string string)
  : string :=
  let si := GoString.sort_Strings si in
  foldl (λ result k, result +:+ " " +:+ k +:+ "(" +:+ index priv k +:+ ")") "" si.

(** [printPrivileges], with the keys ranged over in the order of
    [range_keys]; any other order gives the same string, see
    [printPrivileges_ranged_pairs]. *)
Definition printPrivileges (priv : gmap string string) : string :=
  printPrivileges_ranged (range_keys priv) priv.

(** [for i, x := range xs { body }], where the body may fault. *)
Fixpoint for_range {A St : Type} (body : nat → A → St → option St)
    (i : nat) (xs : list A) (s : St) : option St :=
  match xs with
  | [] => Some s
  | x :: xs => s' ← body i x s; for_range body (S i) xs s'
  end.

Definition crc64_of (s : string) : Z :=
  crc64.Checksum (list_ascii_of_string s) hashTable.

(** The [switch field.Name] of [NewUserPermission], given the string form
    [v] of [values[i]]. *)
Definition UserPermission_switch (field : query.Field) (v : string)
    (up : UserPermission) : UserPermission :=
  if String.eqb (query.Name field) "Host" then
    {| up_Host := v; up_User := up_User up;
       up_PasswordChecksum := up_PasswordChecksum up;
       up_Privileges := up_Privileges up |}
  else if String.eqb (query.Name field) "User" then
    {| up_Host := up_Host up; up_User := v;
       up_PasswordChecksum := up_PasswordChecksum up;
       up_Privileges := up_Privileges up |}
  else if String.eqb (query.Name field) "Password" then
    {| up_Host := up_Host up; up_User := up_User up;
       up_PasswordChecksum := crc64_of v;
       up_Privileges := up_Privileges up |}
  else
    {| up_Host := up_Host up; up_User := up_User up;
       up_PasswordChecksum := up_PasswordChecksum up;
       up_Privileges := <[query.Name field := v]> (up_Privileges up) |}.

(** The loop shared by the three constructors: [values[i]] is read at
    every index of [fields], and faults ([None]) past the end of [values]. *)
Definition construct {T : Type} (switch : query.Field → string → T → T)
    (fields : list query.Field) (values : list sqltypes.Value) (zero : T)
  : option T :=
  for_range (λ i field up,
      v ← values !! i;
      Some (switch field (sqltypes.Value_String v) up))
    0 fields zero.

(** NewUserPermission is a helper method to create a UserPermission *)
Definition NewUserPermission (fields : list query.Field)
    (values : list sqltypes.Value) : option UserPermission :=
  construct UserPermission_switch fields values
    {| up_Host := ""; up_User := ""; up_PasswordChecksum := 0;
       up_Privileges := ∅ |}.

(** UserPermissionPrimaryKey returns the sorting key for a UserPermission *)
Definition UserPermissionPrimaryKey (up : UserPermission) : string :=
  up_Host up +:+ ":" +:+ up_User up.

(** [fmt.Sprintf("%v", x)] for a [uint64]: its decimal digits. *)
Definition Sprint_uint64 (x : Z) : string := pretty (Z.to_N x).

(** UserPermissionString pretty-prints a UserPermission *)
Definition UserPermissionString (up : UserPermission) : string :=
  let passwd :=
    if Z.eqb (up_PasswordChecksum up) 0 then "NoPassword"
    else "PasswordChecksum(" +:+ Sprint_uint64 (up_PasswordChecksum up) +:+ ")" in
  "UserPermission " +:+ passwd +:+ printPrivileges (up_Privileges up).

Definition userPermissionList (upl : list UserPermission) : permissionList :=
  {| Get i := up ← upl !! i;
              Some (UserPermissionPrimaryKey up, UserPermissionString up);
     Len := length upl |}.

(** The [switch field.Name] of [NewDbPermission]. *)
Definition DbPermission_switch (field : query.Field) (v : string)
    (up : DbPermission) : DbPermission :=
  if String.eqb (query.Name field) "Host" then
    {| dp_Host := v; dp_Db := dp_Db up; dp_User := dp_User up;
       dp_Privileges := dp_Privileges up |}
  else if String.eqb (query.Name field) "Db" then
    {| dp_Host := dp_Host up; dp_Db := v; dp_User := dp_User up;
       dp_Privileges := dp_Privileges up |}
  else if String.eqb (query.Name field) "User" then
    {| dp_Host := dp_Host up; dp_Db := dp_Db up; dp_User := v;
       dp_Privileges := dp_Privileges up |}
  else
    {| dp_Host := dp_Host up; dp_Db := dp_Db up; dp_User := dp_User up;
       dp_Privileges := <[query.Name field := v]> (dp_Privileges up) |}.

(** NewDbPermission is a helper method to create a DbPermission *)
Definition NewDbPermission (fields : list query.Field)
    (values : list sqltypes.Value) : option DbPermission :=
  construct DbPermission_switch fields values
    {| dp_Host := ""; dp_Db := ""; dp_User := ""; dp_Privileges := ∅ |}.

(** DbPermissionPrimaryKey returns the sorting key for a DbPermission *)
Definition DbPermissionPrimaryKey (dp : DbPermission) : string :=
  dp_Host dp +:+ ":" +:+ dp_Db dp +:+ ":" +:+ dp_User dp.

(** DbPermissionString pretty-prints a DbPermission *)
Definition DbPermissionString (dp : DbPermission) : string :=
  "DbPermission" +:+ printPrivileges (dp_Privileges dp).

Definition dbPermissionList (upl : list DbPermission) : permissionList :=
  {| Get i := dp ← upl !! i;
              Some (DbPermissionPrimaryKey dp, DbPermissionString dp);
     Len := length upl |}.

(** The [switch field.Name] of [NewHostPermission]. *)
Definition HostPermission_switch (field : query.Field) (v : string)
    (hp : HostPermission) : HostPermission :=
  if String.eqb (query.Name field) "Host" then
    {| hp_Host := v; hp_Db := hp_Db hp; hp_Privileges := hp_Privileges hp |}
  else if String.eqb (query.Name field) "Db" then
    {| hp_Host := hp_Host hp; hp_Db := v; hp_Privileges := hp_Privileges hp |}
  else
    {| hp_Host := hp_Host hp; hp_Db := hp_Db hp;
       hp_Privileges := <[query.Name field := v]> (hp_Privileges hp) |}.

(** NewHostPermission is a helper method to create a HostPermission *)
Definition NewHostPermission (fields : list query.Field)
    (values : list sqltypes.Value) : option HostPermission :=
  construct HostPermission_switch fields values
    {| hp_Host := ""; hp_Db := ""; hp_Privileges := ∅ |}.

(** HostPermissionPrimaryKey returns the sorting key for a HostPermission *)
Definition HostPermissionPrimaryKey (hp : HostPermission) : string :=
  hp_Host hp +:+ ":" +:+ hp_Db hp.

(** HostPermissionString pretty-prints a HostPermission *)
Definition HostPermissionString (hp : HostPermission) : string :=
  "HostPermission" +:+ printPrivileges (hp_Privileges hp).

Definition hostPermissionList (upl : list HostPermission) : permissionList :=
  {| Get i := hp ← upl !! i;
              Some (HostPermissionPrimaryKey hp, HostPermissionString hp);
     Len := length upl |}.

(** [printPermissions]: the header, then one line per index below [Len]. *)
Definition printPermissions (name : string) (permissions : permissionList)
  : option string :=
  for_range (λ _ i result,
      '(pk, val) ← Get permissions i;
      Some (result +:+ "  " +:+ pk +:+ ": " +:+ val +:+ nl))
    0 (seq 0 (Len permissions))
    (name +:+ " Permissions:" +:+ nl).

(** PermissionsString pretty-prints Permissions *)
Definition PermissionsString (permissions : Permissions) : option string :=
  u ← printPermissions "User" (userPermissionList (UserPermissions permissions));
  d ← printPermissions "Db" (dbPermissionList (DbPermissions permissions));
  h ← printPermissions "Host" (hostPermissionList (HostPermissions permissions));
  Some (u +:+ d +:+ h).

(** The two message formats of [diffPermissions]. *)
Definition extra_error (sideName name pk : string) : error :=
  Errorf (sideName +:+ " has an extra " +:+ name +:+ " " +:+ pk).

Definition disagree_error (leftName rightName name pk lval rval : string) : error :=
  Errorf (leftName +:+ " and " +:+ rightName +:+ " disagree on " +:+ name +:+ " "
          +:+ pk +:+ ":" +:+ nl +:+ lval +:+ nl +:+ " differs from:" +:+ nl +:+ rval).

Section diffPermissions.
Context {R : Type} `{!ErrorRecorder R}.
Variables (name leftName : string) (left : permissionList).
Variables (rightName : string) (right : permissionList).

(** The first loop: while both cursors are in range.  It returns the
    cursors and the recorder at loop exit; [None] is a fault of [Get]
    or an exhausted iteration budget [n]. *)
Fixpoint merge_loop (n leftIndex rightIndex : nat) (er : R)
  : option (nat * nat * R) :=
  if (leftIndex <? Len left)%nat && (rightIndex <? Len right)%nat then
    match n with
    | O => None
    | S n =>
        '(lpk, lval) ← Get left leftIndex;
        '(rpk, rval) ← Get right rightIndex;
        if String.ltb lpk rpk then
          (* extra value on the left side *)
          merge_loop n (S leftIndex) rightIndex
            (RecordError (Some (extra_error leftName name lpk)) er)
        else if String.ltb rpk lpk then
          (* extra value on the right side *)
          merge_loop n leftIndex (S rightIndex)
            (RecordError (Some (extra_error rightName name rpk)) er)
        else
          (* same name, let's see content *)
          let er :=
            if negb (String.eqb lval rval) then
              RecordError
                (Some (disagree_error leftName rightName name lpk lval rval)) er
            else er in
          merge_loop n (S leftIndex) (S rightIndex) er
    end
  else Some (leftIndex, rightIndex, er).

(** The two draining loops, one per side. *)
Fixpoint drain_loop (sideName : string) (side : permissionList)
    (n index : nat) (er : R) : option R :=
  if (index <? Len side)%nat then
    match n with
    | O => None
    | S n =>
        '(pk, _) ← Get side index;
        drain_loop sideName side n (S index)
          (RecordError (Some (extra_error sideName name pk)) er)
    end
  else Some er.

Definition diffPermissions (er : R) : option R :=
  '(leftIndex, rightIndex, er) ← merge_loop (Len left + Len right) 0 0 er;
  er ← drain_loop leftName left (Len left) leftIndex er;
  drain_loop rightName right (Len right) rightIndex er.
End diffPermissions.

(** DiffPermissions records the errors between two permission sets *)
Definition DiffPermissions {R : Type} `{!ErrorRecorder R}
    (leftName : string) (left : Permissions)
    (rightName : string) (right : Permissions) (er : R) : option R :=
  er ← diffPermissions "user"
         leftName (userPermissionList (UserPermissions left))
         rightName (userPermissionList (UserPermissions right)) er;
  er ← diffPermissions "db"
         leftName (dbPermissionList (DbPermissions left))
         rightName (dbPermissionList (DbPermissions right)) er;
  diffPermissions "host"
    leftName (hostPermissionList (HostPermissions left))
    rightName (hostPermissionList (HostPermissions right)) er.

(** DiffPermissionsToArray difs two sets of permissions, and returns the
    difference.  The inner option is Go's slice: [None] is the nil slice,
    [Some l] a non-nil one; the outer option is a run-time fault. *)
Definition DiffPermissionsToArray (leftName : string) (left : Permissions)
    (rightName : string) (right : Permissions) : option (option (list string)) :=
  er ← DiffPermissions leftName left rightName right {| Errors := [] |};
  Some (if HasErrors er then Some (ErrorStrings er) else None).

(** *** The mismatch records behind the recorded messages *)

Inductive side : Type := Left | Right.

(** A mismatch record: an extra entry on one side, or differing content
    for one key. *)
Inductive mismatch : Type :=
  | Extra (sd : side) (pk : string)
  | Disagree (pk lval rval : string).

Definition key (m : mismatch) : string :=
  match m with Extra _ pk => pk | Disagree pk _ _ => pk end.

(** The error that [diffPermissions] records for a mismatch. *)
Definition render (name leftName rightName : string) (m : mismatch) : error :=
  match m with
  | Extra Left pk => extra_error leftName name pk
  | Extra Right pk => extra_error rightName name pk
  | Disagree pk lval rval => disagree_error leftName rightName name pk lval rval
  end.

(** What a [permissionList] yields, index by index: the list of its
    (primary key, rendering) pairs. *)
Definition views (pl : permissionList) (l : list (string * string)) : Prop :=
  Len pl = length l ∧ ∀ i, Get pl i = l !! i.

Definition user_view (upl : list UserPermission) : list (string * string) :=
  fmap (λ up, (UserPermissionPrimaryKey up, UserPermissionString up)) upl.

Definition db_view (upl : list DbPermission) : list (string * string) :=
  fmap (λ dp, (DbPermissionPrimaryKey dp, DbPermissionString dp)) upl.

Definition host_view (upl : list HostPermission) : list (string * string) :=
  fmap (λ hp, (HostPermissionPrimaryKey hp, HostPermissionString hp)) upl.

(** The merge of [diffPermissions] on the remaining entries of the two
    sides: the records it emits from the cursors on. *)
Fixpoint merge_records (l : list (string * string))
  : list (string * string) → list mismatch :=
  fix inner (r : list (string * string)) : list mismatch :=
    match l, r with
    | [], _ => fmap (λ e, Extra Right e.1) r
    | _, [] => fmap (λ e, Extra Left e.1) l
    | (lpk, lval) :: l', (rpk, rval) :: r' =>
        if String.ltb lpk rpk then Extra Left lpk :: merge_records l' r
        else if String.ltb rpk lpk then Extra Right rpk :: inner r'
        else (if negb (String.eqb lval rval) then [Disagree lpk lval rval] else [])
             ++ merge_records l' r'
    end.

(** The mismatches between two sides, as the specification words them:
    a key on one side only is an extra entry of that side, a key on both
    sides with different renderings is a content mismatch. *)
Definition expected (l r : list (string * string)) (m : mismatch) : Prop :=
  match m with
  | Extra Left pk => pk ∈ l.*1 ∧ pk ∉ r.*1
  | Extra Right pk => pk ∈ r.*1 ∧ pk ∉ l.*1
  | Disagree pk lval rval => (pk, lval) ∈ l ∧ (pk, rval) ∈ r ∧ lval ≠ rval
  end.

(** [ms] holds exactly the expected mismatches, each once, in ascending
    order of primary key. *)
Definition exact_diff (l r : list (string * string)) (ms : list mismatch) : Prop :=
  (∀ m, m ∈ ms ↔ expected l r m) ∧
  StronglySorted (λ m1 m2, GoString.lt (key m1) (key m2)) ms.

(** The three entry lists of a snapshot are ordered by primary key with
    respect to [rel]. *)
Definition snapshot_sorted (rel : relation string) (p : Permissions) : Prop :=
  Sorted rel (user_view (UserPermissions p)).*1 ∧
  Sorted rel (db_view (DbPermissions p)).*1 ∧
  Sorted rel (host_view (HostPermissions p)).*1.

(** The errors recorded for three lists of mismatch records, kind by kind. *)
Definition render_all (leftName rightName : string)
    (users dbs hosts : list mismatch) : list error :=
  fmap (render "user" leftName rightName) users ++
  fmap (render "db" leftName rightName) dbs ++
  fmap (render "host" leftName rightName) hosts.

(** Sample snapshots: the example scenario of the specification. *)
Definition sample_u1 : UserPermission :=
  {| up_Host := "h1"; up_User := "u1"; up_PasswordChecksum := 5;
     up_Privileges := {[ "SELECT" := "Y" ]} |}.

Definition sample_u2 : UserPermission :=
  {| up_Host := "h2"; up_User := "u2"; up_PasswordChecksum := 0;
     up_Privileges := ∅ |}.

Definition sample_left : Permissions :=
  {| UserPermissions := [sample_u1]; DbPermissions := []; HostPermissions := [] |}.

Definition sample_right : Permissions :=
  {| UserPermissions := [sample_u1; sample_u2];
     DbPermissions := []; HostPermissions := [] |}.

(** The same two entries as [sample_right], listed in the other order. *)
Definition sample_swapped : Permissions :=
  {| UserPermissions := [sample_u2; sample_u1];
     DbPermissions := []; HostPermissions := [] |}.

(** Two users with different identities and the same primary key. *)
Definition colon_u1 : UserPermission :=
  {| up_Host := "h:a"; up_User := "b"; up_PasswordChecksum := 0;
     up_Privileges := ∅ |}.

Definition colon_u2 : UserPermission :=
  {| up_Host := "h"; up_User := "a:b"; up_PasswordChecksum := 0;
     up_Privileges := ∅ |}.

Definition no_permissions : Permissions :=
  {| UserPermissions := []; DbPermissions := []; HostPermissions := [] |}.

(** Two users that share a primary key, present on the left only. *)
Definition colon_left : Permissions :=
  {| UserPermissions := [colon_u1; colon_u2];
     DbPermissions := []; HostPermissions := [] |}.

(** *** Entry construction *)

(** The string form of the value of the last pair whose field is named
    [k], if there is one. *)
Definition last_named (k : string) (fvs : list (query.Field * sqltypes.Value))
  : option string :=
  (λ fv, sqltypes.Value_String fv.2)
    <$> last (filter (λ fv, query.Name fv.1 = k) fvs).

(** The string form of the value paired with the last field named [k],
    if some field is named [k]. *)
Definition last_value (k : string) (fields : list query.Field)
    (values : list sqltypes.Value) : option string :=
  last_named k (zip fields values).

(** One pass of a constructor's loop over the paired fields and values. *)
Definition apply_fields {T : Type} (switch : query.Field → string → T → T)
    (zero : T) (fvs : list (query.Field * sqltypes.Value)) : T :=
  foldl (λ up fv, switch fv.1 (sqltypes.Value_String fv.2) up) zero fvs.



(** Two inputs with different columns and the same password. *)
Definition sample_fields1 : list query.Field :=
  [ {| query.Name := "Host" |}; {| query.Name := "Password" |};
    {| query.Name := "Select_priv" |} ].
Definition sample_values1 : list sqltypes.Value :=
  [ {| sqltypes.Value_String := "h1" |}; {| sqltypes.Value_String := "secret" |};
    {| sqltypes.Value_String := "Y" |} ].
Definition sample_fields2 : list query.Field :=
  [ {| query.Name := "Password" |}; {| query.Name := "User" |} ].
Definition sample_values2 : list sqltypes.Value :=
  [ {| sqltypes.Value_String := "secret" |}; {| sqltypes.Value_String := "u2" |} ].

(** *** Pretty-printing *)

(** The line printed for one entry. *)
Definition entry_line (e : string * string) : string :=
  "  " +:+ e.1 +:+ ": " +:+ e.2 +:+ nl.

(** The report of one kind: its header and one line per entry. *)
Definition report (name : string) (l : list (string * string)) : string :=
  name +:+ " Permissions:" +:+ nl +:+ GoString.concat (entry_line <$> l).

(** The text of one privilege. *)
Definition pair_text (kv : string * string) : string :=
  " " +:+ kv.1 +:+ "(" +:+ kv.2 +:+ ")".

(** What a user entry prints for its password checksum. *)
Definition password_marker (checksum : Z) : string :=
  if Z.eqb checksum 0 then "NoPassword"
  else "PasswordChecksum(" +:+ Sprint_uint64 checksum +:+ ")".

(** The privileges of a map as (name, value) pairs sorted by name. *)
Definition sorted_pairs (priv : gmap string string) : list (string * string) :=
  (λ k, (k, index priv k)) <$> GoString.sort_Strings (range_keys priv).

(** *** The differ seen from both sides *)

(** A mismatch record as the swapped comparison sees it: an extra entry
    of the left side is an extra entry of the right side there, and the
    two renderings of a content mismatch change places. *)
Definition mirror (m : mismatch) : mismatch :=
  match m with
  | Extra Left pk => Extra Right pk
  | Extra Right pk => Extra Left pk
  | Disagree pk lval rval => Disagree pk rval lval
  end.

(** By how much the lengths of two lists differ. *)
Definition length_gap {A : Type} (l r : list A) : nat :=
  (length l - length r) + (length r - length l).

(** The number of entries of a snapshot, all kinds together. *)
Definition entries (p : Permissions) : nat :=
  length (UserPermissions p) + length (DbPermissions p) +
  length (HostPermissions p).

(** The errors recorded for a snapshot whose entries are all extra on
    the side named [sideName]. *)
Definition all_extra (sideName : string) (p : Permissions) : list error :=
  (extra_error sideName "user" <$> (user_view (UserPermissions p)).*1) ++
  (extra_error sideName "db" <$> (db_view (DbPermissions p)).*1) ++
  (extra_error sideName "host" <$> (host_view (HostPermissions p)).*1).

(** Whether a string holds the separator of the primary keys. *)
Fixpoint has_colon (s : string) : bool :=
  match s with
  | EmptyString => false
  | String c s => Ascii.eqb c ":" || has_colon s
  end.

(** A kind's switch stores the value of a field named [k] in the
    component [proj] and leaves that component alone for any other field. *)
Definition routes_to {T : Type} (switch : query.Field → string → T → T)
    (proj : T → string) (k : string) : Prop :=
  ∀ f v t, proj (switch f v t) = if decide (query.Name f = k) then v else proj t.

(** A snapshot holding one user entry. *)
Definition one_user (up : UserPermission) : Permissions :=
  {| UserPermissions := [up]; DbPermissions := []; HostPermissions := [] |}.

(** [sample_u1] after a change of password. *)
Definition sample_u1_rekeyed : UserPermission :=
  {| up_Host := "h1"; up_User := "u1"; up_PasswordChecksum := 7;
     up_Privileges := {[ "SELECT" := "Y" ]} |}.

(** The values of a user whose password column holds the empty string,
    for the columns of [sample_fields2]. *)
Definition sample_values_blank : list sqltypes.Value :=
  [ {| sqltypes.Value_String := "" |}; {| sqltypes.Value_String := "u2" |} ].

(** The two users of [colon_left], one on each side. *)
Definition colon_right : Permissions :=
  {| UserPermissions := [colon_u2; colon_u1];
     DbPermissions := []; HostPermissions := [] |}.

End proto.

(** ** go/vt/zktopo/serving_graph.go *)

Module zktopo.

(** Modelled from the spec: the coordination-service client consumed by
    the store ([zk.Conn] of go/zk, not part of the two files): get, set,
    delete, children and create on paths, each returning Go's pair of a
    value and an error and each telling "path not found"
    ([zookeeper_ErrNoNode]) from all other failures.  [St] is the state of
    the service as seen through the connection. *)
Class Conn (St : Type) := {
  Get : string → St → (string * option error) * St;
  Set_ : string → string → Z → St → option error * St;
  Create : string → string → St → (string * option error) * St;
  Delete : string → Z → St → option error * St;
  Children : string → St → (list string * option error) * St }.

(** [encoding/json] on a descriptor type [D]: [MarshalIndent] returns the
    text and an error, [Unmarshal] fills a fresh descriptor or fails. *)
Class JSON (D : Type) := {
  json_MarshalIndent : D → string * option error;
  json_Unmarshal : string → result D }.

(** Modelled from the spec: [convertError] (zktopo, not part of the two
    files) turns the service's "path not found" into the distinguished
    [topo_ErrNoNode] and surfaces every other failure as it is; a nil
    error stays nil. *)
Definition convertError (err : option error) : option error :=
  match err with
  | Some zookeeper_ErrNoNode => Some topo_ErrNoNode
  | _ => err
  end.

Section serving_graph.
(** [path.Join] and [path.Dir] of Go's library. *)
Variable path_Join : string → string → string.
Variable path_Dir : string → string.
Context {St : Type} `{!Conn St}.

Definition zkPathForCell (cell : string) : string :=
  "/zk/" +:+ cell +:+ "/vt".

Definition zkPathForSrvKeyspaces (cell : string) : string :=
  path_Join (zkPathForCell cell) "ns".

Definition zkPathForSrvKeyspace (cell keyspace : string) : string :=
  path_Join (zkPathForSrvKeyspaces cell) keyspace.

Definition zkPathForSrvVSchema (cell : string) : string :=
  path_Join (zkPathForCell cell) "vschema".

(** GetSrvKeyspaceNames is part of the topo.Server interface.  The nil
    slice is the empty list. *)
Definition GetSrvKeyspaceNames (cell : string) (zconn : St)
  : (list string * option error) * St :=
  let '((children, err), zconn) := Children (zkPathForSrvKeyspaces cell) zconn in
  match err with
  | None => ((GoString.sort_Strings children, None), zconn)
  | Some zookeeper_ErrNoNode => (([], None), zconn)
  | Some _ => (([], convertError err), zconn)
  end.

(** Modelled from the spec: [zk.CreateRecursive] (go/zk, not part of the
    two files) creates the node and, when that fails because the parent
    is missing, first creates the parent path recursively with empty
    content and then creates the node.  [n] bounds the depth of the
    recursion; [None] means the bound was too small. *)
Fixpoint CreateRecursive (n : nat) (zkPath value : string) (zconn : St)
  : option ((string * option error) * St) :=
  match n with
  | O => None
  | S n =>
      let '((pathCreated, err), zconn) := Create zkPath value zconn in
      match err with
      | Some zookeeper_ErrNoNode =>
          '((_, err), zconn) ← CreateRecursive n (path_Dir zkPath) "" zconn;
          match err with
          | Some _ => Some (("", err), zconn)
          | None => Some (Create zkPath value zconn)
          end
      | _ => Some ((pathCreated, err), zconn)
      end
  end.

Section descriptor.
(** The two descriptor messages, [topodata.SrvKeyspace] and
    [vschema.SrvVSchema], with their JSON encodings. *)
Context {SrvKeyspace SrvVSchema : Type} `{!JSON SrvKeyspace, !JSON SrvVSchema}.

(** The error of [fmt.Errorf("... unmarshal failed: %v %v", data, err)]. *)
Definition unmarshal_failed (kind data : string) (err : error) : error :=
  Errorf (kind +:+ " unmarshal failed: " +:+ data +:+ " " +:+ Error err).

(** UpdateSrvKeyspace is part of the topo.Server interface.  [n] is
    the depth bound handed to [CreateRecursive]. *)
Definition UpdateSrvKeyspace (n : nat) (cell keyspace : string)
    (srvKeyspace : SrvKeyspace) (zconn : St) : option (option error * St) :=
  let path := zkPathForSrvKeyspace cell keyspace in
  let '(data, err) := json_MarshalIndent srvKeyspace in
  match err with
  | Some _ => Some (err, zconn)
  | None =>
      let '(err, zconn) := Set_ path data (-1) zconn in
      match err with
      | Some zookeeper_ErrNoNode =>
          '((_, err), zconn) ← CreateRecursive n path data zconn;
          Some (convertError err, zconn)
      | _ => Some (convertError err, zconn)
      end
  end.

(** DeleteSrvKeyspace is part of the topo.Server interface *)
Definition DeleteSrvKeyspace (cell keyspace : string) (zconn : St)
  : option error * St :=
  let path := zkPathForSrvKeyspace cell keyspace in
  let '(err, zconn) := Delete path (-1) zconn in
  match err with
  | Some _ => (convertError err, zconn)
  | None => (None, zconn)
  end.

(** GetSrvKeyspace is part of the topo.Server interface *)
Definition GetSrvKeyspace (cell keyspace : string) (zconn : St)
  : (option SrvKeyspace * option error) * St :=
  let path := zkPathForSrvKeyspace cell keyspace in
  let '((data, err), zconn) := Get path zconn in
  match err with
  | Some _ => ((None, convertError err), zconn)
  | None =>
      if Nat.eqb (String.length data) 0 then
        ((None, Some topo_ErrNoNode), zconn)
      else
        match json_Unmarshal data with
        | Err err =>
            ((None, Some (unmarshal_failed "SrvKeyspace" data err)), zconn)
        | Ok srvKeyspace => ((Some srvKeyspace, None), zconn)
        end
  end.

(** UpdateSrvVSchema is part of the topo.Server interface *)
Definition UpdateSrvVSchema (n : nat) (cell : string)
    (srvVSchema : SrvVSchema) (zconn : St) : option (option error * St) :=
  let path := zkPathForSrvVSchema cell in
  let '(data, err) := json_MarshalIndent srvVSchema in
  match err with
  | Some _ => Some (err, zconn)
  | None =>
      let '(err, zconn) := Set_ path data (-1) zconn in
      match err with
      | Some zookeeper_ErrNoNode =>
          '((_, err), zconn) ← CreateRecursive n path data zconn;
          Some (convertError err, zconn)
      | _ => Some (convertError err, zconn)
      end
  end.

(** GetSrvVSchema is part of the topo.Server interface *)
Definition GetSrvVSchema (cell : string) (zconn : St)
  : (option SrvVSchema * option error) * St :=
  let path := zkPathForSrvVSchema cell in
  let '((data, err), zconn) := Get path zconn in
  match err with
  | Some _ => ((None, convertError err), zconn)
  | None =>
      if Nat.eqb (String.length data) 0 then
        ((None, Some topo_ErrNoNode), zconn)
      else
        match json_Unmarshal data with
        | Err err =>
            ((None, Some (unmarshal_failed "SrvVSchema" data err)), zconn)
        | Ok srvVSchema => ((Some srvVSchema, None), zconn)
        end
  end.
End descriptor.

(** The outcomes of a read, in terms of what the underlying get returned
    ([got]) and what the store returned ([ret]): not found when the node
    is absent, not found when its value is empty, an error other than not
    found when the value does not unmarshal, the descriptor otherwise. *)
Definition read_outcomes {D : Type} `{!JSON D}
    (got : (string * option error) * St)
    (ret : (option D * option error) * St) : Prop :=
  (got.1.2 = Some zookeeper_ErrNoNode →
     ret = ((None, Some topo_ErrNoNode), got.2)) ∧
  (got.1.2 = None → got.1.1 = "" →
     ret = ((None, Some topo_ErrNoNode), got.2)) ∧
  (got.1.2 = None → got.1.1 ≠ "" →
     ∀ e, json_Unmarshal got.1.1 = Err e →
       ∃ err, ret = ((None, Some err), got.2) ∧ err ≠ topo_ErrNoNode) ∧
  (got.1.2 = None → got.1.1 ≠ "" →
     ∀ d, json_Unmarshal got.1.1 = Ok d → ret = ((Some d, None), got.2)).

(** The outcomes of listing the keyspaces, in terms of what the children
    call returned. *)
Definition list_outcomes (got : (list string * option error) * St)
    (ret : (list string * option error) * St) : Prop :=
  (got.1.2 = Some zookeeper_ErrNoNode → ret = (([], None), got.2)) ∧
  (got.1.2 = None →
     ∃ names, ret = ((names, None), got.2) ∧
              StronglySorted String.le names ∧ names ≡ₚ got.1.1) ∧
  (∀ e, got.1.2 = Some e → e ≠ zookeeper_ErrNoNode →
     ∃ err, ret = (([], Some err), got.2)).
End serving_graph.

(** *** A model of the coordination service *)

(** Modelled from the spec: the coordination service as an in-memory tree
    of nodes.  A node is addressed by its path and holds a value and a
    version; a node is created under an existing parent only, and deleted
    only when it has no children.  Version [-1] matches any version. *)
Record znode := { znode_data : string; znode_version : Z }.

Section fake.
Variable path_Dir : string → string.
Variable path_Base : string → string.

(** The paths of the children of [path]. *)
Definition children_of (path : string) (nodes : gmap string znode) : list string :=
  filter (λ q, q ≠ path ∧ path_Dir q = path) (map_to_list nodes).*1.

Definition version_ok (version : Z) (nd : znode) : bool :=
  Z.eqb version (-1) || Z.eqb version (znode_version nd).

Definition fake_Get (path : string) (nodes : gmap string znode)
  : (string * option error) * gmap string znode :=
  match nodes !! path with
  | Some nd => ((znode_data nd, None), nodes)
  | None => (("", Some zookeeper_ErrNoNode), nodes)
  end.

Definition fake_Set (path data : string) (version : Z) (nodes : gmap string znode)
  : option error * gmap string znode :=
  match nodes !! path with
  | None => (Some zookeeper_ErrNoNode, nodes)
  | Some nd =>
      if version_ok version nd then
        (None, <[path := {| znode_data := data;
                            znode_version := znode_version nd + 1 |}]> nodes)
      else (Some zookeeper_ErrBadVersion, nodes)
  end.

Definition fake_Create (path data : string) (nodes : gmap string znode)
  : (string * option error) * gmap string znode :=
  match nodes !! path with
  | Some _ => (("", Some zookeeper_ErrNodeExists), nodes)
  | None =>
      match nodes !! path_Dir path with
      | None => (("", Some zookeeper_ErrNoNode), nodes)
      | Some _ =>
          ((path, None),
           <[path := {| znode_data := data; znode_version := 0 |}]> nodes)
      end
  end.

Definition fake_Delete (path : string) (version : Z) (nodes : gmap string znode)
  : option error * gmap string znode :=
  match nodes !! path with
  | None => (Some zookeeper_ErrNoNode, nodes)
  | Some nd =>
      if negb (version_ok version nd) then (Some zookeeper_ErrBadVersion, nodes)
      else match children_of path nodes with
           | [] => (None, delete path nodes)
           | _ :: _ => (Some zookeeper_ErrNotEmpty, nodes)
           end
  end.

Definition fake_Children (path : string) (nodes : gmap string znode)
  : (list string * option error) * gmap string znode :=
  match nodes !! path with
  | None => (([], Some zookeeper_ErrNoNode), nodes)
  | Some _ => ((path_Base <$> children_of path nodes, None), nodes)
  end.

Definition fake_Conn : Conn (gmap string znode) :=
  {| Get := fake_Get; Set_ := fake_Set; Create := fake_Create;
     Delete := fake_Delete; Children := fake_Children |}.
End fake.

(** A connection to a service that cannot be reached: every call fails
    with [zookeeper_ErrConnectionClosed]. *)
Definition closed_Conn : Conn unit :=
  {| Get _ s := (("", Some zookeeper_ErrConnectionClosed), s);
     Set_ _ _ _ s := (Some zookeeper_ErrConnectionClosed, s);
     Create _ _ s := (("", Some zookeeper_ErrConnectionClosed), s);
     Delete _ _ s := (Some zookeeper_ErrConnectionClosed, s);
     Children _ s := (([], Some zookeeper_ErrConnectionClosed), s) |}.

(** *** The store at work on a sample tree *)

(** Joining and splitting of clean paths, enough to run the store on
    sample cells and keyspaces. *)
Definition sample_Join (a b : string) : string := a +:+ "/" +:+ b.

Fixpoint before_last_slash (s : string) : option string :=
  match s with
  | EmptyString => None
  | String c s =>
      match before_last_slash s with
      | Some d => Some (String c d)
      | None => if Ascii.eqb c "/" then Some EmptyString else None
      end
  end.

Fixpoint after_last_slash (s : string) : string :=
  match s with
  | EmptyString => EmptyString
  | String c s' =>
      match before_last_slash s' with
      | Some _ => after_last_slash s'
      | None => if Ascii.eqb c "/" then s' else s
      end
  end.

Definition sample_Dir (p : string) : string :=
  match before_last_slash p with
  | Some EmptyString => "/"
  | Some d => d
  | None => "."
  end.

Definition sample_Base (p : string) : string := after_last_slash p.

(** A sample encoding: a descriptor is a string, written after an
    opening brace. *)
Definition sample_JSON : JSON string :=
  {| json_MarshalIndent d := (String "{" d, None);
     json_Unmarshal data :=
       match data with
       | String c d =>
           if Ascii.eqb c "{" then Ok d
           else Err (json_error "invalid character")
       | EmptyString => Err (json_error "unexpected end of JSON input")
       end |}.

(** The service with only its root node. *)
Definition sample_nodes : gmap string znode :=
  {[ "/" := {| znode_data := ""; znode_version := 0 |} ]}.

(** The state after [UpdateSrvKeyspace] wrote [d] for ([cell], [keyspace]). *)
Definition after_update (cell keyspace d : string) (nodes : gmap string znode)
  : gmap string znode :=
  match UpdateSrvKeyspace (Conn0 := fake_Conn sample_Dir sample_Base)
          (JSON0 := sample_JSON) sample_Join sample_Dir 8 cell keyspace d nodes with
  | Some (_, nodes') => nodes'
  | None => nodes
  end.

(** *** What a caller of the store observes *)

(** A Go result pair that holds a value or an error, never both and never
    neither. *)
Definition value_xor_error {D : Type} (ret : option D * option error) : Prop :=
  match ret with
  | (Some _, None) | (None, Some _) => True
  | _ => False
  end.

(** What a read finds at [q] in the model: the value of the node, when
    the node exists and its value is not empty. *)
Definition visible (nodes : gmap string znode) (q : string) : option string :=
  match nodes !! q with
  | Some nd => if decide (znode_data nd = "") then None else Some (znode_data nd)
  | None => None
  end.

(** What a read returns for the value found, in the words of
    [GetSrvKeyspace] and [GetSrvVSchema]. *)
Definition decoded {D : Type} `{!JSON D} (kind : string) (found : option string)
  : option D * option error :=
  match found with
  | None => (None, Some topo_ErrNoNode)
  | Some data =>
      match json_Unmarshal data with
      | Err err => (None, Some (unmarshal_failed kind data err))
      | Ok d => (Some d, None)
      end
  end.

(** What the two updates do over the model once the descriptor is
    marshalled to [data]: the set succeeds on an existing node whatever
    its version, and an absent node is created recursively. *)
Definition set_then_create (path_Dir path_Base : string → string) (n : nat)
    (path data : string) (nodes : gmap string znode)
  : option (option error * gmap string znode) :=
  match nodes !! path with
  | Some nd =>
      Some (None, <[path := {| znode_data := data;
                               znode_version := znode_version nd + 1 |}]> nodes)
  | None =>
      '((_, err), zconn) ← CreateRecursive (Conn0 := fake_Conn path_Dir path_Base)
                             path_Dir n path data nodes;
      Some (convertError err, zconn)
  end.

(** A connection whose children call lists the strings held by its state,
    in the order they are held; every other call fails. *)
Definition listing_Conn : Conn (list string) :=
  {| Get _ s := (("", Some zookeeper_ErrConnectionClosed), s);
     Set_ _ _ _ s := (Some zookeeper_ErrConnectionClosed, s);
     Create _ _ s := (("", Some zookeeper_ErrConnectionClosed), s);
     Delete _ _ s := (Some zookeeper_ErrConnectionClosed, s);
     Children _ s := ((s, None), s) |}.

(** The state after [UpdateSrvVSchema] wrote [d] for [cell]. *)
Definition after_vschema (cell d : string) (nodes : gmap string znode)
  : gmap string znode :=
  match UpdateSrvVSchema (Conn0 := fake_Conn sample_Dir sample_Base)
          (JSON1 := sample_JSON) sample_Join sample_Dir 8 cell d nodes with
  | Some (_, nodes') => nodes'
  | None => nodes
  end.

(** The state after [DeleteSrvKeyspace] for ([cell], [keyspace]). *)
Definition after_delete (cell keyspace : string) (nodes : gmap string znode)
  : gmap string znode :=
  (DeleteSrvKeyspace (Conn0 := fake_Conn sample_Dir sample_Base)
     sample_Join cell keyspace nodes).2.

End zktopo.

(** * Part II: the properties *)

(** ** Go strings *)

Module GoStringFacts.

Import GoString.

Lemma ltb_compare s t : String.ltb s t = true ↔ String.compare s t = Lt.
Proof. unfold String.ltb. destruct (String.compare s t); split; congruence. Qed.

Lemma leb_compare s t : String.leb s t = true ↔ String.compare s t ≠ Gt.
Proof. unfold String.leb. destruct (String.compare s t); split; congruence. Qed.

Lemma compare_refl s : String.compare s s = Eq.
Proof. by apply OrderedTypeEx.String_as_OT.cmp_eq. Qed.

Lemma lt_irrefl s : ¬ lt s s.
Proof. unfold lt. rewrite ltb_compare, compare_refl. discriminate. Qed.

Lemma lt_trans s t u : lt s t → lt t u → lt s u.
Proof.
  unfold lt. rewrite !ltb_compare.
  change String.compare with OrderedTypeEx.String_as_OT.cmp.
  rewrite !OrderedTypeEx.String_as_OT.cmp_lt.
  apply OrderedTypeEx.String_as_OT.lt_trans.
Qed.

Lemma lt_asym s t : lt s t → ¬ lt t s.
Proof. intros H1 H2. exact (lt_irrefl s (lt_trans _ _ _ H1 H2)). Qed.

(** The three outcomes of comparing two keys, as the merge loop tests
    them: [s < t], else [t < s], else the keys are equal. *)
Lemma trichotomy s t :
  (String.ltb s t = true) ∨
  (String.ltb s t = false ∧ String.ltb t s = true) ∨
  (String.ltb s t = false ∧ String.ltb t s = false ∧ s = t).
Proof.
  unfold String.ltb. rewrite (String.compare_antisym t s).
  destruct (String.compare s t) eqn:E; simpl; auto.
  apply OrderedTypeEx.String_as_OT.cmp_eq in E. auto.
Qed.

Lemma le_lt_or_eq s t : le s t ↔ lt s t ∨ s = t.
Proof.
  unfold String.le, lt. rewrite Is_true_true, leb_compare, ltb_compare. split.
  - destruct (String.compare s t) eqn:E; try tauto.
    apply OrderedTypeEx.String_as_OT.cmp_eq in E. auto.
  - intros [-> | ->]; [discriminate|]. by rewrite compare_refl.
Qed.

#[global] Instance lt_transitive : Transitive lt := lt_trans.
#[global] Instance lt_irreflexive : Irreflexive lt := lt_irrefl.

Lemma sort_Strings_Sorted si : StronglySorted le (sort_Strings si).
Proof. apply StronglySorted_merge_sort; apply _. Qed.

Lemma sort_Strings_Permutation si : sort_Strings si ≡ₚ si.
Proof. apply merge_sort_Permutation. Qed.

(** A sorted permutation is unique: whatever order the strings arrive in,
    sorting them yields one and the same slice. *)
Lemma sorted_unique (l1 l2 : list string) :
  StronglySorted le l1 → StronglySorted le l2 → l1 ≡ₚ l2 → l1 = l2.
Proof. intros. by apply (StronglySorted_unique le). Qed.

Lemma sort_Strings_perm_eq si1 si2 :
  si1 ≡ₚ si2 → sort_Strings si1 = sort_Strings si2.
Proof.
  intros Hp. apply sorted_unique; auto using sort_Strings_Sorted.
  by rewrite !sort_Strings_Permutation.
Qed.

(** Without duplicates, the sorted slice is strictly increasing. *)
Lemma sort_Strings_strict si :
  NoDup si → StronglySorted lt (sort_Strings si).
Proof.
  intros Hnd.
  assert (Hnd' : NoDup (sort_Strings si)) by by rewrite sort_Strings_Permutation.
  pose proof (sort_Strings_Sorted si) as Hs.
  induction Hs as [|x l Hs IH Hx]; constructor.
  - apply IH. by apply NoDup_cons in Hnd' as [_ ?].
  - apply NoDup_cons in Hnd' as [Hin _].
    apply Forall_forall. intros y Hy.
    rewrite Forall_forall in Hx. specialize (Hx y Hy).
    apply le_lt_or_eq in Hx as [?| ->]; [done|]. by destruct Hin.
Qed.

Lemma append_assoc (s t u : string) : (s +:+ t) +:+ u = s +:+ t +:+ u.
Proof.
  induction s as [|a s IH]; [done|].
  change (String a ((s +:+ t) +:+ u) = String a (s +:+ t +:+ u)).
  by rewrite IH.
Qed.

Lemma append_nil_r (s : string) : s +:+ "" = s.
Proof.
  induction s as [|a s IH]; [done|].
  change (String a (s +:+ "") = String a s). by rewrite IH.
Qed.

(** A loop [result += piece x] over [xs] appends the pieces in order. *)
Lemma foldl_append {A : Type} (piece : A → string) (xs : list A) (init : string) :
  foldl (λ result x, result +:+ piece x) init xs = init +:+ concat (piece <$> xs).
Proof.
  revert init. induction xs as [|x xs IH]; intros init; simpl.
  - by rewrite append_nil_r.
  - rewrite IH. unfold concat. csimpl. by rewrite append_assoc.
Qed.

Lemma append_cons (a : ascii) (s t : string) :
  String a s +:+ t = String a (s +:+ t).
Proof. reflexivity. Qed.

Lemma append_length (s t : string) :
  String.length (s +:+ t) = String.length s + String.length t.
Proof.
  induction s as [|a s IH]; [done|].
  rewrite append_cons. simpl. by rewrite IH.
Qed.

(** What precedes a common suffix is determined by the whole string. *)
Lemma append_inj_r (s1 s2 t : string) : s1 +:+ t = s2 +:+ t → s1 = s2.
Proof.
  revert s2. induction s1 as [|a s1 IH]; intros [|b s2] Heq.
  - done.
  - apply (f_equal String.length) in Heq.
    rewrite !append_length in Heq. simpl in Heq. lia.
  - apply (f_equal String.length) in Heq.
    rewrite !append_length in Heq. simpl in Heq. lia.
  - rewrite !append_cons in Heq. injection Heq as -> Heq. f_equal. by apply IH.
Qed.

(** What follows a common prefix is determined by the whole string. *)
Lemma append_inj_l (s t1 t2 : string) : s +:+ t1 = s +:+ t2 → t1 = t2.
Proof.
  induction s as [|a s IH]; [done|].
  rewrite !append_cons. intros [= Heq]. by apply IH.
Qed.

End GoStringFacts.

(** ** Error recorders *)

Module ConcurrencyFacts.

Import concurrency.

Lemma record_all_app `{ErrorRecorder R} (l1 l2 : list error) (er : R) :
  record_all (l1 ++ l2) er = record_all l2 (record_all l1 er).
Proof. apply foldl_app. Qed.

Lemma record_all_Errors (errs : list error) (aer : AllErrorRecorder) :
  Errors (record_all errs aer) = Errors aer ++ errs.
Proof.
  revert aer. induction errs as [|e errs IH]; intros aer.
  - simpl. by rewrite app_nil_r.
  - change (record_all (e :: errs) aer)
      with (record_all errs (RecordError (Some e) aer)).
    rewrite IH. simpl. by rewrite <- app_assoc.
Qed.

End ConcurrencyFacts.

(** ** CRC-64 *)

Module Crc64Facts.

Import crc64.
Local Open Scope Z_scope.

Lemma lxor_uint64 a b : is_uint64 a → is_uint64 b → is_uint64 (Z.lxor a b).
Proof.
  unfold is_uint64. intros [Ha1 Ha2] [Hb1 Hb2].
  assert (H0 : 0 <= Z.lxor a b) by by apply Z.lxor_nonneg.
  split; [done|].
  destruct (Z.eq_dec (Z.lxor a b) 0) as [->|Hne]; [done|].
  apply Z.log2_lt_pow2; [lia|].
  pose proof (Z.log2_lxor a b Ha1 Hb1) as Hlog.
  assert (Z.log2 a < 64).
  { destruct (Z.eq_dec a 0) as [->|?]; [done|]. apply Z.log2_lt_pow2; lia. }
  assert (Z.log2 b < 64).
  { destruct (Z.eq_dec b 0) as [->|?]; [done|]. apply Z.log2_lt_pow2; lia. }
  lia.
Qed.

Lemma shiftr_uint64 a n : 0 <= n → is_uint64 a → is_uint64 (Z.shiftr a n).
Proof.
  unfold is_uint64. intros Hn [Ha1 Ha2]. rewrite Z.shiftr_div_pow2 by done.
  split; [apply Z.div_pos; lia|].
  apply Z.le_lt_trans with a; [|done].
  apply Z.div_le_upper_bound; [lia|]. nia.
Qed.

Lemma at_index_uint64 tab i : Forall is_uint64 tab → is_uint64 (at_index tab i).
Proof.
  intros Htab. unfold at_index.
  destruct (nth_in_or_default (Z.to_nat i) tab 0) as [Hin| ->].
  - rewrite Forall_forall in Htab. apply Htab. by apply list_elem_of_In.
  - by vm_compute.
Qed.

Lemma update_byte_uint64 tab crc v :
  Forall is_uint64 tab → is_uint64 crc → is_uint64 (update_byte tab crc v).
Proof.
  intros Htab Hcrc. unfold update_byte.
  apply lxor_uint64; [by apply at_index_uint64|by apply shiftr_uint64].
Qed.

(** Whatever the data, [Checksum] over a table of 64-bit entries is a
    64-bit value. *)
Lemma Checksum_uint64 data tab :
  Forall is_uint64 tab → is_uint64 (Checksum data tab).
Proof.
  intros Htab. unfold Checksum, update.
  apply lxor_uint64; [|by vm_compute].
  assert (Hinit : is_uint64 (Z.lxor 0 mask64)) by by vm_compute.
  revert Hinit. generalize (Z.lxor 0 mask64).
  induction data as [|v data IH]; intros crc Hcrc; simpl; [done|].
  apply IH. by apply update_byte_uint64.
Qed.

(** The checksum of the empty string is zero. *)
Lemma Checksum_empty tab : Checksum [] tab = 0.
Proof. done. Qed.

(** The ISO checksums of "a", "ab" and "abc", as in the test table of
    Go's package. *)
Example Checksum_ISO_vectors :
  Checksum (list_ascii_of_string "a") (MakeTable ISO) = 0x3420000000000000 ∧
  Checksum (list_ascii_of_string "ab") (MakeTable ISO) = 0x36c4200000000000 ∧
  Checksum (list_ascii_of_string "abc") (MakeTable ISO) = 0x3776c42000000000.
Proof. vm_compute. done. Qed.

End Crc64Facts.

(** ** Permissions *)

Module ProtoFacts.

Import concurrency ConcurrencyFacts proto.
Import GoString(nl).

(** *** The three kinds implement [permissionList] *)

Lemma userPermissionList_views upl :
  views (userPermissionList upl) (user_view upl).
Proof.
  split; [symmetry; apply length_fmap|].
  intros i. unfold user_view. rewrite list_lookup_fmap. simpl.
  by destruct (upl !! i).
Qed.

Lemma dbPermissionList_views upl :
  views (dbPermissionList upl) (db_view upl).
Proof.
  split; [symmetry; apply length_fmap|].
  intros i. unfold db_view. rewrite list_lookup_fmap. simpl.
  by destruct (upl !! i).
Qed.

Lemma hostPermissionList_views upl :
  views (hostPermissionList upl) (host_view upl).
Proof.
  split; [symmetry; apply length_fmap|].
  intros i. unfold host_view. rewrite list_lookup_fmap. simpl.
  by destruct (upl !! i).
Qed.

Lemma merge_records_nil_r l : merge_records l [] = fmap (λ e, Extra Left e.1) l.
Proof. by destruct l as [|[??] ?]. Qed.

Lemma merge_records_nil_l r : merge_records [] r = fmap (λ e, Extra Right e.1) r.
Proof. by destruct r. Qed.

Lemma merge_records_cons lpk lval l rpk rval r :
  merge_records ((lpk, lval) :: l) ((rpk, rval) :: r) =
    if String.ltb lpk rpk then
      Extra Left lpk :: merge_records l ((rpk, rval) :: r)
    else if String.ltb rpk lpk then
      Extra Right rpk :: merge_records ((lpk, lval) :: l) r
    else (if negb (String.eqb lval rval) then [Disagree lpk lval rval] else [])
         ++ merge_records l r.
Proof. done. Qed.

(** *** The loops compute the merge *)

Section loops.
Context {R : Type} `{!ErrorRecorder R}.
Variables (name leftName : string) (left : permissionList).
Variables (rightName : string) (right : permissionList).
Variables (L Rt : list (string * string)).
Hypothesis HL : views left L.
Hypothesis HR : views right Rt.

Lemma drain_loop_left n index (er : R) :
  length L - index ≤ n →
  drain_loop name leftName left n index er =
    Some (record_all
            (fmap (λ e, extra_error leftName name e.1) (drop index L)) er).
Proof.
  destruct HL as [Hlen Hget].
  revert index er. induction n as [|n IH]; intros index er Hn; simpl;
    rewrite Hlen; destruct (Nat.ltb_spec index (length L)) as [Hlt|Hge];
    try lia; try (rewrite drop_ge by lia; done).
  rewrite Hget.
  destruct (lookup_lt_is_Some_2 L index Hlt) as [[pk val] Hi].
  rewrite Hi. simpl. rewrite IH by lia.
  by rewrite (drop_S _ _ _ Hi).
Qed.

Lemma drain_loop_right n index (er : R) :
  length Rt - index ≤ n →
  drain_loop name rightName right n index er =
    Some (record_all
            (fmap (λ e, extra_error rightName name e.1) (drop index Rt)) er).
Proof.
  destruct HR as [Hlen Hget].
  revert index er. induction n as [|n IH]; intros index er Hn; simpl;
    rewrite Hlen; destruct (Nat.ltb_spec index (length Rt)) as [Hlt|Hge];
    try lia; try (rewrite drop_ge by lia; done).
  rewrite Hget.
  destruct (lookup_lt_is_Some_2 Rt index Hlt) as [[pk val] Hi].
  rewrite Hi. simpl. rewrite IH by lia.
  by rewrite (drop_S _ _ _ Hi).
Qed.

(** From any pair of cursors, with an iteration budget of at least the
    number of entries left, the merge loop followed by the two draining
    loops records the merge of the remaining entries. *)
Lemma merge_loop_drain n leftIndex rightIndex (er : R) :
  (length L - leftIndex) + (length Rt - rightIndex) ≤ n →
  ('(li, ri, er') ← merge_loop name leftName left rightName right
                      n leftIndex rightIndex er;
   er'' ← drain_loop name leftName left (Len left) li er';
   drain_loop name rightName right (Len right) ri er'') =
  Some (record_all
          (fmap (render name leftName rightName)
               (merge_records (drop leftIndex L) (drop rightIndex Rt))) er).
Proof.
  pose proof HL as [HlenL HgetL]. pose proof HR as [HlenR HgetR].
  assert (Hexit : ∀ li ri (er0 : R),
    ¬ (li < length L ∧ ri < length Rt) →
    (er'' ← drain_loop name leftName left (length L) li er0;
     drain_loop name rightName right (length Rt) ri er'') =
    Some (record_all
            (fmap (render name leftName rightName)
                 (merge_records (drop li L) (drop ri Rt))) er0)).
  { clear er. intros li ri er Hout.
    rewrite drain_loop_left by lia. simpl.
    rewrite drain_loop_right by lia. f_equal.
    rewrite <- record_all_app.
    destruct (decide (li < length L)) as [Hl|Hl].
    - rewrite (drop_ge Rt) by lia.
      rewrite merge_records_nil_r, <- list_fmap_compose, app_nil_r. done.
    - rewrite (drop_ge L) by lia.
      rewrite merge_records_nil_l, <- list_fmap_compose. done. }
  revert leftIndex rightIndex er.
  induction n as [|n IH]; intros li ri er Hn; simpl; rewrite HlenL, HlenR;
    destruct (Nat.ltb_spec li (length L)) as [Hl|Hl];
    destruct (Nat.ltb_spec ri (length Rt)) as [Hr|Hr]; simpl;
    try (apply Hexit; lia); [lia|].
  rewrite HgetL, HgetR.
  destruct (lookup_lt_is_Some_2 L li Hl) as [[lpk lval] Hli].
  destruct (lookup_lt_is_Some_2 Rt ri Hr) as [[rpk rval] Hri].
  rewrite Hli, Hri. simpl.
  rewrite (drop_S _ _ _ Hli), (drop_S _ _ _ Hri), merge_records_cons.
  destruct (String.ltb lpk rpk) eqn:E1; [|destruct (String.ltb rpk lpk) eqn:E2].
  - rewrite <- HlenL, <- HlenR, IH by lia. by rewrite (drop_S _ _ _ Hri).
  - rewrite <- HlenL, <- HlenR, IH by lia. by rewrite (drop_S _ _ _ Hli).
  - rewrite <- HlenL, <- HlenR, IH by lia.
    by destruct (negb (String.eqb lval rval)).
Qed.

(** [diffPermissions] never faults and records the merge of the two sides. *)
Lemma diffPermissions_records (er : R) :
  diffPermissions name leftName left rightName right er =
  Some (record_all (fmap (render name leftName rightName) (merge_records L Rt)) er).
Proof.
  unfold diffPermissions.
  pose proof (merge_loop_drain (Len left + Len right) 0 0 er) as H.
  rewrite !drop_0 in H. apply H.
  destruct HL as [-> _], HR as [-> _]. lia.
Qed.

End loops.

(** *** What the merge emits on sides in strictly ascending key order *)

Lemma pair_in_fst (k v : string) (l : list (string * string)) :
  (k, v) ∈ l → k ∈ l.*1.
Proof. intros H. apply list_elem_of_fmap. by exists (k, v). Qed.

Lemma expected_nil_l r m :
  expected [] r m ↔ ∃ e, m = Extra Right e.1 ∧ e ∈ r.
Proof.
  destruct m as [[|] pk|pk lv rv]; simpl;
    rewrite ?list_elem_of_fmap, ?elem_of_nil; naive_solver.
Qed.

Lemma expected_nil_r l m :
  expected l [] m ↔ ∃ e, m = Extra Left e.1 ∧ e ∈ l.
Proof.
  destruct m as [[|] pk|pk lv rv]; simpl;
    rewrite ?list_elem_of_fmap, ?elem_of_nil; naive_solver.
Qed.

Lemma expected_cons_left lpk lval l r m :
  lpk ∉ r.*1 →
  expected ((lpk, lval) :: l) r m ↔ m = Extra Left lpk ∨ expected l r m.
Proof.
  intros Hr. destruct m as [[|] pk|pk lv rv]; simpl;
    rewrite ?elem_of_cons, ?not_elem_of_cons;
    naive_solver eauto using pair_in_fst.
Qed.

Lemma expected_cons_right rpk rval l r m :
  rpk ∉ l.*1 →
  expected l ((rpk, rval) :: r) m ↔ m = Extra Right rpk ∨ expected l r m.
Proof.
  intros Hl. destruct m as [[|] pk|pk lv rv]; simpl;
    rewrite ?elem_of_cons, ?not_elem_of_cons;
    naive_solver eauto using pair_in_fst.
Qed.

Lemma expected_cons_both k lval rval l r m :
  k ∉ l.*1 → k ∉ r.*1 →
  expected ((k, lval) :: l) ((k, rval) :: r) m ↔
    (m = Disagree k lval rval ∧ lval ≠ rval) ∨ expected l r m.
Proof.
  intros Hl Hr. destruct m as [[|] pk|pk lv rv]; simpl;
    rewrite ?elem_of_cons, ?not_elem_of_cons;
    naive_solver eauto using pair_in_fst.
Qed.

(** In a strictly ascending list the head is below, and so different
    from, every later key. *)
Lemma sorted_head_below k (ks : list string) :
  StronglySorted GoString.lt (k :: ks) →
  StronglySorted GoString.lt ks ∧ Forall (GoString.lt k) ks.
Proof. intros H. by apply StronglySorted_inv in H. Qed.

Lemma below_not_in k (ks : list string) :
  Forall (GoString.lt k) ks → k ∉ ks.
Proof.
  rewrite Forall_forall. intros H Hin.
  exact (GoStringFacts.lt_irrefl k (H k Hin)).
Qed.

Lemma below_trans k k' (ks : list string) :
  GoString.lt k k' → Forall (GoString.lt k') ks → Forall (GoString.lt k) ks.
Proof.
  intros Hk H. eapply Forall_impl; [exact H|].
  intros x. by apply GoStringFacts.lt_trans.
Qed.

(** Every record of the merge carries a key of one of the sides. *)
Lemma merge_records_key l r m :
  m ∈ merge_records l r → key m ∈ l.*1 ∨ key m ∈ r.*1.
Proof.
  revert r. induction l as [|[lpk lval] l IHl]; intros r.
  { rewrite merge_records_nil_l, list_elem_of_fmap.
    intros (e & -> & He). right. exact (list_elem_of_fmap_2 fst _ _ He). }
  induction r as [|[rpk rval] r IHr].
  { rewrite merge_records_nil_r, list_elem_of_fmap.
    intros (e & -> & He). left. exact (list_elem_of_fmap_2 fst _ _ He). }
  rewrite merge_records_cons.
  destruct (String.ltb lpk rpk); [|destruct (String.ltb rpk lpk)].
  - rewrite elem_of_cons. intros [->|Hm]; simpl; [left; left|].
    destruct (IHl _ Hm) as [?|?]; [left; by right|by right].
  - rewrite elem_of_cons. intros [->|Hm]; simpl; [right; left|].
    destruct (IHr Hm) as [?|?]; [by left|right; by right].
  - rewrite elem_of_app. intros [Hm|Hm].
    + destruct (negb (String.eqb lval rval)); [|by apply elem_of_nil in Hm].
      apply list_elem_of_singleton in Hm as ->. simpl. left; left.
    + destruct (IHl _ Hm) as [?|?]; [left|right]; by right.
Qed.

Lemma merge_records_below k l r :
  Forall (GoString.lt k) l.*1 → Forall (GoString.lt k) r.*1 →
  Forall (λ m, GoString.lt k (key m)) (merge_records l r).
Proof.
  rewrite !Forall_forall. intros Hl Hr m Hm.
  destruct (merge_records_key _ _ _ Hm); auto.
Qed.

(** The comparison of two keys by the loop, in terms of the order. *)
Lemma ltb_cases lpk rpk :
  (String.ltb lpk rpk = true ∧ GoString.lt lpk rpk) ∨
  (String.ltb lpk rpk = false ∧ String.ltb rpk lpk = true ∧ GoString.lt rpk lpk) ∨
  (String.ltb lpk rpk = false ∧ String.ltb rpk lpk = false ∧ lpk = rpk).
Proof. unfold GoString.lt. destruct (GoStringFacts.trichotomy lpk rpk); naive_solver. Qed.

Lemma merge_records_expected l r :
  StronglySorted GoString.lt l.*1 → StronglySorted GoString.lt r.*1 →
  ∀ m, m ∈ merge_records l r ↔ expected l r m.
Proof.
  revert r. induction l as [|[lpk lval] l IHl]; intros r Hl Hr m.
  { rewrite merge_records_nil_l, expected_nil_l, list_elem_of_fmap. done. }
  induction r as [|[rpk rval] r IHr].
  { rewrite merge_records_nil_r, expected_nil_r, list_elem_of_fmap. done. }
  rewrite merge_records_cons.
  apply sorted_head_below in Hl as Hl'. destruct Hl' as [Hl1 Hl2].
  apply sorted_head_below in Hr as Hr'. destruct Hr' as [Hr1 Hr2].
  destruct (ltb_cases lpk rpk) as [[-> Hlt]|[(-> & -> & Hlt)|(-> & -> & ->)]].
  - rewrite elem_of_cons, IHl by done.
    rewrite expected_cons_left; [done|].
    apply below_not_in. constructor; [done|]. by eapply below_trans.
  - rewrite elem_of_cons, IHr by done.
    rewrite expected_cons_right; [done|].
    apply below_not_in. constructor; [done|]. by eapply below_trans.
  - rewrite elem_of_app, IHl by done.
    rewrite expected_cons_both by by apply below_not_in.
    destruct (String.eqb_spec lval rval) as [->|Hne]; simpl.
    + rewrite elem_of_nil. naive_solver.
    + rewrite list_elem_of_singleton. naive_solver.
Qed.

Lemma extras_sorted sd (l : list (string * string)) :
  StronglySorted GoString.lt l.*1 →
  StronglySorted (λ m1 m2, GoString.lt (key m1) (key m2))
    ((λ e, Extra sd e.1) <$> l).
Proof.
  induction l as [|e l IH]; csimpl; intros H; [constructor|].
  apply sorted_head_below in H as [H1 H2].
  apply SSorted_cons; [by apply IH|].
  rewrite Forall_fmap. by rewrite Forall_fmap in H2.
Qed.

Lemma merge_records_sorted l r :
  StronglySorted GoString.lt l.*1 → StronglySorted GoString.lt r.*1 →
  StronglySorted (λ m1 m2, GoString.lt (key m1) (key m2)) (merge_records l r).
Proof.
  revert r. induction l as [|[lpk lval] l IHl]; intros r Hl Hr.
  { rewrite merge_records_nil_l. by apply extras_sorted. }
  induction r as [|[rpk rval] r IHr].
  { rewrite merge_records_nil_r. by apply extras_sorted. }
  rewrite merge_records_cons.
  apply sorted_head_below in Hl as Hl'. destruct Hl' as [Hl1 Hl2].
  apply sorted_head_below in Hr as Hr'. destruct Hr' as [Hr1 Hr2].
  destruct (ltb_cases lpk rpk) as [[-> Hlt]|[(-> & -> & Hlt)|(-> & -> & ->)]].
  - constructor; [by apply IHl|].
    apply (merge_records_below lpk l ((rpk, rval) :: r)); [done|].
    constructor; [done|]. by eapply below_trans.
  - constructor; [by apply IHr|].
    apply (merge_records_below rpk ((lpk, lval) :: l) r); [|done].
    constructor; [done|]. by eapply below_trans.
  - destruct (negb (String.eqb lval rval)); simpl; [|by apply IHl].
    constructor; [by apply IHl|].
    by apply (merge_records_below rpk l r).
Qed.

Lemma merge_records_exact l r :
  Sorted GoString.lt l.*1 → Sorted GoString.lt r.*1 →
  exact_diff l r (merge_records l r).
Proof.
  intros Hl%Sorted_StronglySorted Hr%Sorted_StronglySorted; [|apply _..].
  split; [by apply merge_records_expected|by apply merge_records_sorted].
Qed.

(** Two sides that yield the same entries in the same order have an
    empty merge, sorted or not. *)
Lemma merge_records_same l : merge_records l l = [].
Proof.
  induction l as [|[k v] l IH]; [done|].
  rewrite merge_records_cons.
  assert (String.ltb k k = false) as ->.
  { destruct (String.ltb k k) eqn:E; [|done]. by destruct (GoStringFacts.lt_irrefl k). }
  by rewrite String.eqb_refl.
Qed.

(** *** The reconciler *)

(** [DiffPermissions] never faults: whatever the recorder, it feeds it the
    rendered merges of the user, db and host lists, in that order. *)
Lemma DiffPermissions_records {R : Type} `{!ErrorRecorder R}
    leftName left rightName right (er : R) :
  DiffPermissions leftName left rightName right er =
  Some (record_all
          (render_all leftName rightName
             (merge_records (user_view (UserPermissions left))
                            (user_view (UserPermissions right)))
             (merge_records (db_view (DbPermissions left))
                            (db_view (DbPermissions right)))
             (merge_records (host_view (HostPermissions left))
                            (host_view (HostPermissions right))))
          er).
Proof.
  unfold DiffPermissions, render_all.
  rewrite (diffPermissions_records _ _ _ _ _ _ _
             (userPermissionList_views _) (userPermissionList_views _)).
  simpl.
  rewrite (diffPermissions_records _ _ _ _ _ _ _
             (dbPermissionList_views _) (dbPermissionList_views _)).
  simpl.
  rewrite (diffPermissions_records _ _ _ _ _ _ _
             (hostPermissionList_views _) (hostPermissionList_views _)).
  by rewrite !record_all_app.
Qed.

(** What [DiffPermissionsToArray] returns, given the recorded errors. *)
Lemma DiffPermissionsToArray_records leftName left rightName right :
  ∃ errs : list error,
    DiffPermissions leftName left rightName right {| Errors := [] |}
      = Some {| Errors := errs |} ∧
    DiffPermissionsToArray leftName left rightName right
      = Some (match errs with [] => None | _ => Some (Error <$> errs) end).
Proof.
  unfold DiffPermissionsToArray. rewrite DiffPermissions_records.
  set (errs := render_all _ _ _ _ _).
  assert (record_all errs {| Errors := [] |} = {| Errors := errs |}) as ->.
  { pose proof (record_all_Errors errs {| Errors := [] |}) as H.
    destruct (record_all errs _) as [es]. simpl in H. by subst. }
  exists errs. split; [done|]. simpl.
  unfold HasErrors, ErrorStrings. simpl. by destruct errs.
Qed.

(** C1 (as amended): for every pair of snapshots whose six entry lists
    are in strictly ascending primary-key order, [DiffPermissions] runs to
    completion and feeds the recorder, kind by kind in the order user, db,
    host, the renderings of three lists of mismatch records; each list
    holds exactly the expected mismatches of its kind (an extra-entry
    record for every key on one side only, a content-mismatch record with
    both renderings for every key on both sides whose renderings differ,
    and nothing else) in strictly ascending key order, hence one record
    per key. *)
Theorem DiffPermissions_exact {R : Type} `{!ErrorRecorder R}
    (leftName : string) (left : Permissions)
    (rightName : string) (right : Permissions) (er : R) :
  snapshot_sorted GoString.lt left →
  snapshot_sorted GoString.lt right →
  ∃ users dbs hosts : list mismatch,
    DiffPermissions leftName left rightName right er
      = Some (record_all (render_all leftName rightName users dbs hosts) er) ∧
    exact_diff (user_view (UserPermissions left))
               (user_view (UserPermissions right)) users ∧
    exact_diff (db_view (DbPermissions left))
               (db_view (DbPermissions right)) dbs ∧
    exact_diff (host_view (HostPermissions left))
               (host_view (HostPermissions right)) hosts.
Proof.
  intros (Hlu & Hld & Hlh) (Hru & Hrd & Hrh).
  eexists _, _, _. split; [apply DiffPermissions_records|].
  auto using merge_records_exact.
Qed.

(** The sample snapshots are in strictly ascending key order. *)
Lemma DiffPermissions_exact_witness :
  ∃ users dbs hosts : list mismatch,
    DiffPermissions "Left" sample_left "Right" sample_right {| Errors := [] |}
      = Some (record_all (render_all "Left" "Right" users dbs hosts)
                {| Errors := [] |}) ∧
    exact_diff (user_view (UserPermissions sample_left))
               (user_view (UserPermissions sample_right)) users ∧
    exact_diff (db_view (DbPermissions sample_left))
               (db_view (DbPermissions sample_right)) dbs ∧
    exact_diff (host_view (HostPermissions sample_left))
               (host_view (HostPermissions sample_right)) hosts.
Proof.
  apply (DiffPermissions_exact "Left" sample_left "Right" sample_right);
    (split; [|split]); vm_compute; repeat constructor.
Defined.

Lemma exact_diff_nil ms : exact_diff [] [] ms → ms = [].
Proof.
  intros [H _]. destruct ms as [|m ms]; [done|].
  assert (Hm : expected [] [] m) by (apply H; left).
  apply expected_nil_l in Hm as (e & _ & He). by apply elem_of_nil in He.
Qed.

(** Two records of an exact diff never share a key. *)
Lemma exact_diff_two_keys l r m1 m2 ms :
  exact_diff l r (m1 :: m2 :: ms) → key m1 ≠ key m2.
Proof.
  intros [_ H] Heq. apply StronglySorted_inv in H as [_ H].
  apply Forall_cons in H as [H _]. rewrite Heq in H.
  by apply GoStringFacts.lt_irrefl in H.
Qed.

(** C1, counterexample: the claim fails for lists that are ascending but
    not strictly so.  [colon_left] lists two users whose primary keys are
    both "h:a:b"; against an empty right side the key is on one side only,
    yet two extra-entry errors are recorded for it, not exactly one. *)
Lemma DiffPermissions_not_exact_ascending :
  ¬ (∀ left right : Permissions,
       snapshot_sorted String.le left →
       snapshot_sorted String.le right →
       ∃ users dbs hosts : list mismatch,
         DiffPermissions "L" left "R" right {| Errors := [] |}
           = Some (record_all (render_all "L" "R" users dbs hosts)
                     {| Errors := [] |}) ∧
         exact_diff (user_view (UserPermissions left))
                    (user_view (UserPermissions right)) users ∧
         exact_diff (db_view (DbPermissions left))
                    (db_view (DbPermissions right)) dbs ∧
         exact_diff (host_view (HostPermissions left))
                    (host_view (HostPermissions right)) hosts).
Proof.
  intros H.
  destruct (H colon_left no_permissions) as (users & dbs & hosts & Hrun & Hu & Hd & Hh).
  { repeat split; vm_compute; repeat constructor. }
  { repeat split; vm_compute; repeat constructor. }
  apply exact_diff_nil in Hd as ->. apply exact_diff_nil in Hh as ->.
  assert (Hcode : DiffPermissions "L" colon_left "R" no_permissions {| Errors := [] |}
                  = Some {| Errors := [extra_error "L" "user" "h:a:b";
                                       extra_error "L" "user" "h:a:b"] |})
    by (vm_compute; reflexivity).
  rewrite Hcode in Hrun. injection Hrun as Hrun.
  apply (f_equal Errors) in Hrun. rewrite record_all_Errors in Hrun.
  unfold render_all in Hrun. simpl in Hrun. rewrite app_nil_r in Hrun.
  destruct users as [|m1 [|m2 [|m3 users]]]; try discriminate Hrun.
  assert (Hkey : ∀ m, m ∈ [m1; m2] → key m = "h:a:b").
  { intros m Hm. apply Hu in Hm. apply expected_nil_r in Hm as (e & -> & He).
    simpl. unfold colon_left, user_view in He. simpl in He.
    apply elem_of_cons in He as [->|He]; [done|].
    by apply list_elem_of_singleton in He as ->. }
  apply (exact_diff_two_keys _ _ _ _ _ Hu).
  rewrite (Hkey m1), (Hkey m2); [done|set_solver..].
Qed.

(** C2 (as amended): if the two sides list the same entries in the same
    order, [DiffPermissionsToArray] returns the nil slice, whether or not
    the lists are sorted. *)
Theorem DiffPermissionsToArray_same (leftName rightName : string) (p : Permissions) :
  DiffPermissionsToArray leftName p rightName p = Some None.
Proof.
  unfold DiffPermissionsToArray.
  rewrite DiffPermissions_records, !merge_records_same. done.
Qed.

(** C2, counterexample: the same two entries listed in different orders
    do produce mismatches.  [sample_right] and [sample_swapped] hold the
    same entries; the merge reports h1:u1 as extra on both sides. *)
Lemma DiffPermissionsToArray_order_matters :
  ¬ (∀ left right : Permissions,
       UserPermissions left ≡ₚ UserPermissions right →
       DbPermissions left ≡ₚ DbPermissions right →
       HostPermissions left ≡ₚ HostPermissions right →
       DiffPermissionsToArray "L" left "R" right = Some None).
Proof.
  intros H. specialize (H sample_right sample_swapped).
  assert (Hcode : DiffPermissionsToArray "L" sample_right "R" sample_swapped
                  = Some (Some ["L has an extra user h1:u1";
                                "R has an extra user h1:u1"]))
    by (vm_compute; reflexivity).
  rewrite Hcode in H. discriminate H; simpl; [apply Permutation_swap|done..].
Qed.

(** C3: [DiffPermissionsToArray] returns the nil slice exactly when
    [DiffPermissions] records no error into the private recorder;
    otherwise it returns the messages of all recorded errors, in the
    order recorded; it never returns a non-nil empty slice. *)
Theorem DiffPermissionsToArray_nil_iff (leftName : string) (left : Permissions)
    (rightName : string) (right : Permissions) :
  ∃ errs : list error,
    DiffPermissions leftName left rightName right {| Errors := [] |}
      = Some {| Errors := errs |} ∧
    (DiffPermissionsToArray leftName left rightName right = Some None
       ↔ errs = []) ∧
    (errs ≠ [] →
       DiffPermissionsToArray leftName left rightName right
         = Some (Some (Error <$> errs))) ∧
    DiffPermissionsToArray leftName left rightName right ≠ Some (Some []).
Proof.
  destruct (DiffPermissionsToArray_records leftName left rightName right)
    as (errs & Hrun & ->).
  exists errs. split; [done|].
  destruct errs as [|e errs]; repeat split; try done.
Qed.

(** C10: the primary-key functions are not injective on identities.  For
    each kind there are two entries with different identity fields and
    the same primary key; a snapshot holding one and a snapshot holding
    the other are reported as having no difference. *)
Theorem PrimaryKey_not_injective :
  (∃ up1 up2 : UserPermission,
     (up_Host up1, up_User up1) ≠ (up_Host up2, up_User up2) ∧
     UserPermissionPrimaryKey up1 = UserPermissionPrimaryKey up2 ∧
     DiffPermissionsToArray "L"
       {| UserPermissions := [up1]; DbPermissions := []; HostPermissions := [] |}
       "R"
       {| UserPermissions := [up2]; DbPermissions := []; HostPermissions := [] |}
     = Some None) ∧
  (∃ dp1 dp2 : DbPermission,
     (dp_Host dp1, dp_Db dp1, dp_User dp1) ≠ (dp_Host dp2, dp_Db dp2, dp_User dp2) ∧
     DbPermissionPrimaryKey dp1 = DbPermissionPrimaryKey dp2 ∧
     DiffPermissionsToArray "L"
       {| UserPermissions := []; DbPermissions := [dp1]; HostPermissions := [] |}
       "R"
       {| UserPermissions := []; DbPermissions := [dp2]; HostPermissions := [] |}
     = Some None) ∧
  (∃ hp1 hp2 : HostPermission,
     (hp_Host hp1, hp_Db hp1) ≠ (hp_Host hp2, hp_Db hp2) ∧
     HostPermissionPrimaryKey hp1 = HostPermissionPrimaryKey hp2 ∧
     DiffPermissionsToArray "L"
       {| UserPermissions := []; DbPermissions := []; HostPermissions := [hp1] |}
       "R"
       {| UserPermissions := []; DbPermissions := []; HostPermissions := [hp2] |}
     = Some None).
Proof.
  split; [|split].
  - exists colon_u1, colon_u2. split; [done|]. split; vm_compute; reflexivity.
  - exists {| dp_Host := "h:a"; dp_Db := "b"; dp_User := "c"; dp_Privileges := ∅ |},
           {| dp_Host := "h"; dp_Db := "a:b"; dp_User := "c"; dp_Privileges := ∅ |}.
    split; [done|]. split; vm_compute; reflexivity.
  - exists {| hp_Host := "h:a"; hp_Db := "b"; hp_Privileges := ∅ |},
           {| hp_Host := "h"; hp_Db := "a:b"; hp_Privileges := ∅ |}.
    split; [done|]. split; vm_compute; reflexivity.
Qed.

(** *** Entry construction *)

Lemma for_range_construct {T : Type} (switch : query.Field → string → T → T)
    (values : list sqltypes.Value) i fields (s : T) :
  for_range (λ i field up,
      v ← values !! i;
      Some (switch field (sqltypes.Value_String v) up)) i fields s =
  if decide (length fields ≤ length (drop i values))
  then Some (apply_fields switch s (zip fields (drop i values)))
  else None.
Proof.
  revert i s. induction fields as [|f fields IH]; intros i s.
  { simpl. repeat case_decide; (done || lia). }
  destruct (values !! i) as [v|] eqn:Hv.
  - rewrite (drop_S _ _ _ Hv). simpl. rewrite Hv. simpl. rewrite IH.
    simpl. repeat case_decide; (done || lia).
  - apply lookup_ge_None in Hv as Hge. rewrite drop_ge by done.
    simpl. rewrite Hv. simpl. repeat case_decide; (done || lia).
Qed.

(** A constructor faults exactly when [values] is shorter than [fields];
    otherwise it is one pass over the paired fields and values. *)
Lemma construct_Some {T : Type} (switch : query.Field → string → T → T)
    fields values (zero up : T) :
  construct switch fields values zero = Some up ↔
  length fields ≤ length values ∧
  up = apply_fields switch zero (zip fields values).
Proof.
  unfold construct. rewrite for_range_construct, drop_0.
  destruct (decide (length fields ≤ length values)); naive_solver.
Qed.

Lemma apply_fields_snoc {T : Type} (switch : query.Field → string → T → T)
    zero fvs f v :
  apply_fields switch zero (fvs ++ [(f, v)]) =
  switch f (sqltypes.Value_String v) (apply_fields switch zero fvs).
Proof. unfold apply_fields. by rewrite foldl_snoc. Qed.

Lemma last_named_nil k : last_named k [] = None.
Proof. done. Qed.

Lemma last_named_snoc k fvs f v :
  last_named k (fvs ++ [(f, v)]) =
  if decide (query.Name f = k) then Some (sqltypes.Value_String v)
  else last_named k fvs.
Proof.
  unfold last_named. rewrite filter_app.
  destruct (decide (query.Name f = k)) as [Hk|Hk].
  - rewrite (filter_cons_True _ (f, v)) by done.
    rewrite filter_nil, last_snoc. done.
  - rewrite (filter_cons_False _ (f, v)) by done.
    rewrite filter_nil, app_nil_r. done.
Qed.








(** The privileges of that user: Select_priv only. *)
Example NewUserPermission_sample :
  up_Privileges <$> NewUserPermission sample_fields1 sample_values1
  = Some {[ "Select_priv" := "Y" ]}.
Proof. vm_compute. reflexivity. Qed.

(** *** The password checksum *)

Lemma filter_none {A : Type} (P : A → Prop) `{∀ x, Decision (P x)} (l : list A) :
  (∀ x, x ∈ l → ¬ P x) → filter P l = [].
Proof.
  induction l as [|x l IH]; intros Hl; [done|].
  rewrite filter_cons_False by (apply Hl; left).
  apply IH. intros y Hy. apply Hl. by right.
Qed.

(** When exactly the field at index [i] is the last one named [k], the
    last value of [k] is the string form of [values[i]]. *)
Lemma last_value_at k fields values i f v :
  fields !! i = Some f → query.Name f = k → values !! i = Some v →
  (∀ j f', i < j → fields !! j = Some f' → query.Name f' ≠ k) →
  last_value k fields values = Some (sqltypes.Value_String v).
Proof.
  intros Hf Hk Hv Hlater. unfold last_value, last_named.
  assert (Hz : zip fields values !! i = Some (f, v)).
  { apply lookup_zip_with_Some. eauto. }
  rewrite <- (take_drop_middle _ _ _ Hz), filter_app, filter_cons_True by done.
  rewrite (filter_none _ (drop (S i) _)).
  { by rewrite last_snoc. }
  intros [f' v'] [j Hj]%list_elem_of_lookup_1. rewrite lookup_drop in Hj.
  apply lookup_zip_with_Some in Hj as (? & ? & [= -> ->] & Hj & _).
  simpl. eapply Hlater; [|done]. lia.
Qed.

Lemma last_named_None k fvs :
  (∀ fv, fv ∈ fvs → query.Name fv.1 ≠ k) → last_named k fvs = None.
Proof. intros H. unfold last_named. by rewrite filter_none. Qed.

Lemma apply_fields_checksum zero fvs :
  up_PasswordChecksum (apply_fields UserPermission_switch zero fvs) =
    match last_named "Password" fvs with
    | Some s => crc64_of s
    | None => up_PasswordChecksum zero
    end.
Proof.
  induction fvs as [|[f v] fvs IH] using rev_ind; [done|].
  rewrite apply_fields_snoc, last_named_snoc. unfold UserPermission_switch.
  repeat match goal with
    | |- context [String.eqb (query.Name f) ?k] =>
        destruct (String.eqb_spec (query.Name f) k) as [->|?]
    end; simpl; try done; by rewrite decide_False.
Qed.

Lemma hashTable_uint64 : Forall crc64.is_uint64 hashTable.
Proof.
  apply Forall_forall. intros x Hx. unfold crc64.is_uint64.
  assert (Hb : forallb (λ x, (0 <=? x)%Z && (x <? 2 ^ 64)%Z) hashTable = true)
    by (vm_compute; reflexivity).
  rewrite forallb_forall in Hb. apply list_elem_of_In, Hb in Hx. lia.
Qed.

(** C4: two users constructed from inputs whose Password field carries
    the same string have equal checksums, namely the CRC-64 of that string
    over the one table [hashTable], a 64-bit value; a user constructed
    from an input without a Password field has checksum 0 and is rendered
    with the text "NoPassword". *)
Theorem NewUserPermission_PasswordChecksum :
  (∀ fields1 values1 fields2 values2 up1 up2 s,
     NewUserPermission fields1 values1 = Some up1 →
     NewUserPermission fields2 values2 = Some up2 →
     last_value "Password" fields1 values1 = Some s →
     last_value "Password" fields2 values2 = Some s →
     up_PasswordChecksum up1 = up_PasswordChecksum up2 ∧
     up_PasswordChecksum up1 = crc64.Checksum (list_ascii_of_string s) hashTable ∧
     crc64.is_uint64 (up_PasswordChecksum up1)) ∧
  (∀ fields values up,
     NewUserPermission fields values = Some up →
     (∀ field, field ∈ fields → query.Name field ≠ "Password") →
     up_PasswordChecksum up = 0%Z ∧
     UserPermissionString up =
       "UserPermission NoPassword" +:+ printPrivileges (up_Privileges up)).
Proof.
  split.
  - intros fields1 values1 fields2 values2 up1 up2 s
      (_ & ->)%construct_Some (_ & ->)%construct_Some H1 H2.
    unfold last_value in H1, H2.
    rewrite !apply_fields_checksum, H1, H2.
    split; [done|]. split; [done|].
    apply Crc64Facts.Checksum_uint64, hashTable_uint64.
  - intros fields values up (_ & ->)%construct_Some Hno.
    assert (Hsum : up_PasswordChecksum
              (apply_fields UserPermission_switch
                 {| up_Host := ""; up_User := ""; up_PasswordChecksum := 0;
                    up_Privileges := ∅ |} (zip fields values)) = 0%Z).
    { rewrite apply_fields_checksum, last_named_None; [done|].
      intros [f v] Hin. simpl. apply Hno.
      apply list_elem_of_lookup_1 in Hin as [i Hi].
      apply lookup_zip_with_Some in Hi as (? & ? & [= -> ->] & Hi & _).
      by eapply list_elem_of_lookup_2. }
    split; [done|]. unfold UserPermissionString. by rewrite Hsum.
Qed.

Lemma NewUserPermission_PasswordChecksum_witness :
  ∃ up1 up2,
    NewUserPermission sample_fields1 sample_values1 = Some up1 ∧
    NewUserPermission sample_fields2 sample_values2 = Some up2 ∧
    up_PasswordChecksum up1 = up_PasswordChecksum up2 ∧
    up_PasswordChecksum up1
      = crc64.Checksum (list_ascii_of_string "secret") hashTable ∧
    crc64.is_uint64 (up_PasswordChecksum up1).
Proof.
  destruct (NewUserPermission sample_fields1 sample_values1) as [up1|] eqn:E1;
    [|by vm_compute in E1].
  destruct (NewUserPermission sample_fields2 sample_values2) as [up2|] eqn:E2;
    [|by vm_compute in E2].
  exists up1, up2. split; [done|]. split; [done|].
  apply (proj1 NewUserPermission_PasswordChecksum
           sample_fields1 sample_values1 sample_fields2 sample_values2
           up1 up2 "secret" E1 E2); vm_compute; reflexivity.
Defined.

(** *** Pretty-printing *)

Lemma printPermissions_report name permissions l :
  views permissions l →
  printPermissions name permissions = Some (report name l).
Proof.
  intros [Hlen Hget]. unfold printPermissions, report. rewrite Hlen.
  set (init := name +:+ " Permissions:" +:+ nl).
  assert (Hgen : ∀ n a c (result : string), a + n ≤ length l →
    for_range (λ (_ i : nat) (result : string),
        '(pk, val) ← Get permissions i;
        Some (result +:+ "  " +:+ pk +:+ ": " +:+ val +:+ nl)) c (seq a n) result
    = Some (result +:+ GoString.concat (entry_line <$> take n (drop a l)))).
  { induction n as [|n IH]; intros a c result Ha; simpl.
    - by rewrite GoStringFacts.append_nil_r.
    - rewrite Hget.
      destruct (lookup_lt_is_Some_2 l a) as [[pk val] Hi]; [lia|].
      rewrite Hi. simpl. rewrite IH by lia.
      rewrite (drop_S _ _ _ Hi). csimpl.
      unfold GoString.concat, entry_line. simpl.
      by rewrite !GoStringFacts.append_assoc. }
  rewrite (Hgen (length l) 0 0 init) by lia.
  rewrite drop_0, firstn_all. subst init.
  by rewrite !GoStringFacts.append_assoc.
Qed.

(** [PermissionsString] never faults: it is the three reports in the
    order User, Db, Host. *)
Lemma PermissionsString_reports p :
  PermissionsString p =
  Some (report "User" (user_view (UserPermissions p)) +:+
        report "Db" (db_view (DbPermissions p)) +:+
        report "Host" (host_view (HostPermissions p))).
Proof.
  unfold PermissionsString.
  rewrite (printPermissions_report _ _ _ (userPermissionList_views _)). simpl.
  rewrite (printPermissions_report _ _ _ (dbPermissionList_views _)). simpl.
  by rewrite (printPermissions_report _ _ _ (hostPermissionList_views _)).
Qed.

(** In whatever order the map was ranged over, [printPrivileges] prints
    the same pairs: those of the map, sorted by name. *)
Lemma printPrivileges_ranged_pairs si priv :
  si ≡ₚ range_keys priv →
  printPrivileges_ranged si priv = GoString.concat (pair_text <$> sorted_pairs priv).
Proof.
  intros Hp. unfold printPrivileges_ranged, sorted_pairs.
  rewrite (GoStringFacts.sort_Strings_perm_eq _ _ Hp).
  rewrite (GoStringFacts.foldl_append
             (λ k, " " +:+ k +:+ "(" +:+ index priv k +:+ ")")).
  by rewrite <- list_fmap_compose.
Qed.

Lemma sorted_pairs_keys priv :
  (sorted_pairs priv).*1 = GoString.sort_Strings (range_keys priv).
Proof.
  unfold sorted_pairs. rewrite <- list_fmap_compose.
  rewrite <- (list_fmap_id (GoString.sort_Strings _)) at 2.
  by apply list_fmap_ext.
Qed.

Lemma sorted_pairs_sorted priv :
  StronglySorted GoString.lt (sorted_pairs priv).*1.
Proof.
  rewrite sorted_pairs_keys. apply GoStringFacts.sort_Strings_strict.
  apply NoDup_fst_map_to_list.
Qed.

Lemma sorted_pairs_elem_of priv k v :
  (k, v) ∈ sorted_pairs priv ↔ priv !! k = Some v.
Proof.
  unfold sorted_pairs. rewrite list_elem_of_fmap. split.
  - intros (k' & [= -> ->] & Hk).
    rewrite GoStringFacts.sort_Strings_Permutation in Hk.
    apply list_elem_of_fmap in Hk as ([k'' v'] & -> & Hk).
    apply elem_of_map_to_list in Hk. unfold index. simpl. by rewrite Hk.
  - intros Hk. exists k. unfold index. rewrite Hk. split; [done|].
    rewrite GoStringFacts.sort_Strings_Permutation.
    apply list_elem_of_fmap. exists (k, v). split; [done|].
    by apply elem_of_map_to_list.
Qed.

(** C9 (as amended): [PermissionsString] produces, for the kinds User,
    Db, Host in this order, the header "<Kind> Permissions:" and a line
    feed, followed by one line "  <primaryKey>: <rendering>" per entry in
    list order.  The rendering of a Db or Host entry is its type label
    followed by its privileges; the rendering of a User entry is
    "UserPermission ", then the password marker ("NoPassword" for
    checksum 0, else "PasswordChecksum(<decimal>)"), then its privileges.
    The privileges are printed as " name(value)" pairs, exactly those of
    the map, in strictly ascending order of name, in whatever order the
    map is ranged over: the output is a function of the input alone. *)
Theorem PermissionsString_format :
  (∀ p, PermissionsString p =
        Some (report "User" (user_view (UserPermissions p)) +:+
              report "Db" (db_view (DbPermissions p)) +:+
              report "Host" (host_view (HostPermissions p)))) ∧
  (∀ up, UserPermissionString up =
         "UserPermission " +:+ password_marker (up_PasswordChecksum up) +:+
         printPrivileges (up_Privileges up)) ∧
  (∀ dp, DbPermissionString dp = "DbPermission" +:+ printPrivileges (dp_Privileges dp)) ∧
  (∀ hp, HostPermissionString hp = "HostPermission" +:+ printPrivileges (hp_Privileges hp)) ∧
  (∀ priv si, si ≡ₚ range_keys priv →
     ∃ pairs : list (string * string),
       printPrivileges_ranged si priv = GoString.concat (pair_text <$> pairs) ∧
       printPrivileges priv = GoString.concat (pair_text <$> pairs) ∧
       StronglySorted GoString.lt pairs.*1 ∧
       ∀ k v, (k, v) ∈ pairs ↔ priv !! k = Some v).
Proof.
  split; [apply PermissionsString_reports|].
  split; [done|]. split; [done|]. split; [done|].
  intros priv si Hsi. exists (sorted_pairs priv).
  split; [by apply printPrivileges_ranged_pairs|].
  split; [by apply printPrivileges_ranged_pairs|].
  split; [apply sorted_pairs_sorted|apply sorted_pairs_elem_of].
Qed.

(** C9, counterexample: a user entry is not rendered as a type label
    followed by its privileges.  Two users without privileges, one with
    checksum 0 and one with checksum 5, are rendered differently, so no
    label fits both. *)
Lemma UserPermissionString_not_label_privileges :
  ¬ ∃ label : string, ∀ up : UserPermission,
      UserPermissionString up = label +:+ printPrivileges (up_Privileges up).
Proof.
  intros [label H].
  pose proof (H {| up_Host := "h"; up_User := "u"; up_PasswordChecksum := 0;
                   up_Privileges := ∅ |}) as H0.
  pose proof (H {| up_Host := "h"; up_User := "u"; up_PasswordChecksum := 5;
                   up_Privileges := ∅ |}) as H5.
  vm_compute in H0, H5. rewrite <- H0 in H5. discriminate H5.
Qed.

(** Two privileges ranged over in descending order of name. *)
Lemma PermissionsString_format_witness :
  ∃ pairs : list (string * string),
    printPrivileges_ranged ["SELECT"; "ALTER"]
      {[ "SELECT" := "Y"; "ALTER" := "N" ]}
      = GoString.concat (pair_text <$> pairs) ∧
    printPrivileges {[ "SELECT" := "Y"; "ALTER" := "N" ]}
      = GoString.concat (pair_text <$> pairs) ∧
    StronglySorted GoString.lt pairs.*1 ∧
    ∀ k v, (k, v) ∈ pairs ↔
           ({[ "SELECT" := "Y"; "ALTER" := "N" ]} : gmap string string) !! k = Some v.
Proof.
  apply (proj2 (proj2 (proj2 (proj2 PermissionsString_format)))).
  vm_compute. first [reflexivity | apply perm_swap].
Defined.

(** On the sample snapshots one error is recorded and returned. *)
Lemma DiffPermissionsToArray_nil_iff_witness :
  DiffPermissionsToArray "Left" sample_left "Right" sample_right
  = Some (Some ["Right has an extra user h2:u2"]).
Proof.
  destruct (DiffPermissionsToArray_nil_iff "Left" sample_left "Right" sample_right)
    as (errs & Hrun & _ & Hsome & _).
  vm_compute in Hrun. injection Hrun as <-. by rewrite Hsome.
Defined.

(** *** The differ on lists in any order *)

(** What [DiffPermissionsToArray] returns, in terms of the mismatch
    records of the three kinds. *)
Lemma DiffPermissionsToArray_render leftName left rightName right :
  let errs :=
    render_all leftName rightName
      (merge_records (user_view (UserPermissions left))
                     (user_view (UserPermissions right)))
      (merge_records (db_view (DbPermissions left))
                     (db_view (DbPermissions right)))
      (merge_records (host_view (HostPermissions left))
                     (host_view (HostPermissions right))) in
  DiffPermissions leftName left rightName right {| Errors := [] |}
    = Some {| Errors := errs |} ∧
  DiffPermissionsToArray leftName left rightName right
    = Some (match errs with [] => None | _ :: _ => Some (Error <$> errs) end).
Proof.
  intros errs.
  destruct (DiffPermissionsToArray_records leftName left rightName right)
    as (errs' & Hd & ->).
  pose proof Hd as Hd'. rewrite DiffPermissions_records in Hd'.
  injection Hd' as Hd'. apply (f_equal Errors) in Hd'.
  rewrite record_all_Errors in Hd'. simpl in Hd'. fold errs in Hd'.
  subst errs'. split; [done|]. by destruct errs.
Qed.

Lemma ltb_flip a b : String.ltb a b = true → String.ltb b a = false.
Proof.
  intros Hab. destruct (ltb_cases b a) as [[_ Hba]|[(? & _)|(? & _)]]; try done.
  destruct (GoStringFacts.lt_asym a b Hab Hba).
Qed.

(** The merge emits no record exactly when the two sides are the same
    list of (primary key, rendering) pairs. *)
Lemma merge_records_nil_iff l r : merge_records l r = [] ↔ l = r.
Proof.
  split; [|intros ->; apply merge_records_same].
  revert r. induction l as [|[lpk lval] l IH]; intros [|[rpk rval] r].
  - done.
  - rewrite merge_records_nil_l. csimpl. discriminate.
  - rewrite merge_records_nil_r. csimpl. discriminate.
  - rewrite merge_records_cons.
    destruct (ltb_cases lpk rpk) as [[-> _]|[(-> & -> & _)|(-> & -> & ->)]];
      try discriminate.
    destruct (String.eqb_spec lval rval) as [->|]; simpl; [|discriminate].
    intros Hm. f_equal. by apply IH.
Qed.

Lemma render_all_nil leftName rightName (users dbs hosts : list mismatch) :
  render_all leftName rightName users dbs hosts = [] ↔
  users = [] ∧ dbs = [] ∧ hosts = [].
Proof.
  unfold render_all. split.
  - intros (Hu & (Hd & Hh)%app_eq_nil)%app_eq_nil.
    by apply fmap_nil_inv in Hu, Hd, Hh.
  - by intros (-> & -> & ->).
Qed.

(** X1: [DiffPermissionsToArray] returns the nil slice exactly when the
    two snapshots yield, kind by kind, the same sequence of (primary key,
    rendering) pairs; this holds for lists in any order, sorted or not. *)
Theorem DiffPermissionsToArray_nil_views leftName left rightName right :
  DiffPermissionsToArray leftName left rightName right = Some None ↔
  user_view (UserPermissions left) = user_view (UserPermissions right) ∧
  db_view (DbPermissions left) = db_view (DbPermissions right) ∧
  host_view (HostPermissions left) = host_view (HostPermissions right).
Proof.
  destruct (DiffPermissionsToArray_render leftName left rightName right)
    as [_ ->].
  rewrite <- !merge_records_nil_iff, <- (render_all_nil leftName rightName).
  destruct (render_all _ _ _ _ _) as [|e errs]; [done|].
  split; discriminate.
Qed.

(** X2: two snapshots between which [DiffPermissionsToArray] finds no
    difference are pretty-printed to the same text by
    [PermissionsString]. *)
Theorem DiffPermissionsToArray_nil_same_print leftName left rightName right :
  DiffPermissionsToArray leftName left rightName right = Some None →
  PermissionsString left = PermissionsString right.
Proof.
  destruct (DiffPermissionsToArray_render leftName left rightName right)
    as [_ ->].
  destruct (render_all _ _ _ _ _) as [|e errs] eqn:Hnil; [|discriminate].
  intros _. apply render_all_nil in Hnil as (Hu & Hd & Hh).
  apply merge_records_nil_iff in Hu, Hd, Hh.
  rewrite !PermissionsString_reports. by rewrite Hu, Hd, Hh.
Qed.

(** Two different snapshots that diff to nil and print alike. *)
Lemma DiffPermissionsToArray_nil_same_print_witness :
  colon_left ≠ colon_right ∧
  PermissionsString colon_left = PermissionsString colon_right.
Proof.
  split; [discriminate|].
  apply (DiffPermissionsToArray_nil_same_print "L" colon_left "R" colon_right).
  vm_compute. reflexivity.
Defined.

Lemma merge_records_mirror l r :
  merge_records r l = mirror <$> merge_records l r.
Proof.
  revert r. induction l as [|[lpk lval] l IH]; intros r.
  - rewrite merge_records_nil_l, merge_records_nil_r, <- list_fmap_compose.
    done.
  - induction r as [|[rpk rval] r IHr].
    + rewrite merge_records_nil_l, merge_records_nil_r, <- list_fmap_compose.
      done.
    + rewrite !merge_records_cons.
      destruct (ltb_cases lpk rpk) as [[E1 _]|[(E1 & E2 & _)|(E1 & E2 & ->)]].
      * rewrite E1, (ltb_flip _ _ E1), fmap_cons. simpl mirror. f_equal. apply IH.
      * rewrite E1, E2, fmap_cons. simpl mirror. f_equal. apply IHr.
      * rewrite E1. rewrite fmap_app, <- IH, (String.eqb_sym rval lval).
        by destruct (String.eqb lval rval).
Qed.

(** X3: comparing the two snapshots the other way round records the
    mirrored mismatches in the same order: an entry extra on one side is
    reported with the very same message, and a content mismatch is
    reported with the two sides exchanged. *)
Theorem DiffPermissions_swap {R : Type} `{!ErrorRecorder R}
    (leftName : string) (left : Permissions)
    (rightName : string) (right : Permissions) (er : R) :
  ∃ users dbs hosts : list mismatch,
    DiffPermissions leftName left rightName right er
      = Some (record_all (render_all leftName rightName users dbs hosts) er) ∧
    DiffPermissions rightName right leftName left er
      = Some (record_all
                (render_all rightName leftName
                   (mirror <$> users) (mirror <$> dbs) (mirror <$> hosts)) er) ∧
    (∀ name sd pk,
       render name rightName leftName (mirror (Extra sd pk))
       = render name leftName rightName (Extra sd pk)) ∧
    (∀ name pk lval rval,
       render name rightName leftName (mirror (Disagree pk lval rval))
       = disagree_error rightName leftName name pk rval lval).
Proof.
  eexists _, _, _. split; [apply DiffPermissions_records|].
  split; [|split; [by intros name [] pk|done]].
  rewrite DiffPermissions_records.
  by rewrite <- !merge_records_mirror.
Qed.

(** X4: a snapshot compared with an empty one yields one extra-entry
    error per entry, users first, then dbs, then hosts, each kind in list
    order, whatever that order is. *)
Theorem DiffPermissions_against_empty {R : Type} `{!ErrorRecorder R}
    (leftName rightName : string) (p : Permissions) (er : R) :
  DiffPermissions leftName p rightName no_permissions er
    = Some (record_all (all_extra leftName p) er) ∧
  DiffPermissions leftName no_permissions rightName p er
    = Some (record_all (all_extra rightName p) er).
Proof.
  split; rewrite DiffPermissions_records;
    change (user_view (UserPermissions no_permissions)) with (@nil (string * string));
    change (db_view (DbPermissions no_permissions)) with (@nil (string * string));
    change (host_view (HostPermissions no_permissions)) with (@nil (string * string));
    rewrite ?merge_records_nil_r, ?merge_records_nil_l;
    unfold render_all, all_extra; by rewrite <- !list_fmap_compose.
Qed.

Lemma merge_records_length l r :
  length_gap l r ≤ length (merge_records l r) ∧
  length (merge_records l r) ≤ length l + length r.
Proof.
  unfold length_gap. revert r. induction l as [|[lpk lval] l IH]; intros r.
  - rewrite merge_records_nil_l, length_fmap. simpl. lia.
  - induction r as [|[rpk rval] r IHr].
    + rewrite merge_records_nil_r, length_fmap. simpl. lia.
    + rewrite merge_records_cons.
      destruct (String.ltb lpk rpk); [|destruct (String.ltb rpk lpk)].
      * specialize (IH ((rpk, rval) :: r)). simpl in *. lia.
      * simpl in *. lia.
      * specialize (IH r). rewrite length_app.
        destruct (negb (String.eqb lval rval)); simpl in *; lia.
Qed.

(** X5: the number of errors recorded is at least the difference in the
    number of entries of each kind, and at most the number of entries of
    the two snapshots together; in particular snapshots with different
    numbers of entries of some kind never compare as equal. *)
Theorem DiffPermissions_count (leftName : string) (left : Permissions)
    (rightName : string) (right : Permissions) :
  ∃ errs : list error,
    DiffPermissions leftName left rightName right {| Errors := [] |}
      = Some {| Errors := errs |} ∧
    length_gap (UserPermissions left) (UserPermissions right) +
    length_gap (DbPermissions left) (DbPermissions right) +
    length_gap (HostPermissions left) (HostPermissions right) ≤ length errs ∧
    length errs ≤ entries left + entries right.
Proof.
  eexists. split;
    [apply (DiffPermissionsToArray_render leftName left rightName right)|].
  unfold render_all, entries. rewrite !length_app, !length_fmap.
  pose proof (merge_records_length (user_view (UserPermissions left))
                (user_view (UserPermissions right))) as Hu.
  pose proof (merge_records_length (db_view (DbPermissions left))
                (db_view (DbPermissions right))) as Hd.
  pose proof (merge_records_length (host_view (HostPermissions left))
                (host_view (HostPermissions right))) as Hh.
  unfold length_gap, user_view, db_view, host_view in *.
  rewrite !length_fmap in Hu. rewrite !length_fmap in Hd.
  rewrite !length_fmap in Hh. lia.
Qed.

(** *** The constructors at the bounds of their input *)

Lemma construct_None {T : Type} (switch : query.Field → string → T → T)
    fields values (zero : T) :
  construct switch fields values zero = None ↔ length values < length fields.
Proof.
  destruct (construct switch fields values zero) as [up|] eqn:E.
  - apply construct_Some in E as [? _]. split; [discriminate|lia].
  - split; [intros _|done].
    destruct (decide (length fields ≤ length values)) as [Hle|]; [|lia].
    assert (construct switch fields values zero
            = Some (apply_fields switch zero (zip fields values)))
      by by apply construct_Some.
    congruence.
Qed.

Lemma zip_app_ignored {A B : Type} (l : list A) (k more : list B) :
  length l ≤ length k → zip l (k ++ more) = zip l k.
Proof.
  revert k. induction l as [|x l IH]; intros [|y k] Hle; simpl in *;
    try done; try lia.
  f_equal. apply IH. lia.
Qed.

Lemma construct_ignores_more {T : Type} (switch : query.Field → string → T → T)
    fields values more (zero : T) :
  length fields ≤ length values →
  construct switch fields (values ++ more) zero
  = construct switch fields values zero.
Proof.
  intros Hle.
  assert (H1 : construct switch fields values zero
               = Some (apply_fields switch zero (zip fields values)))
    by by apply construct_Some.
  rewrite H1. apply construct_Some. rewrite length_app.
  split; [lia|]. by rewrite zip_app_ignored.
Qed.

(** X6: each of the three constructors reads [values] at every index of
    [fields]: it faults exactly when there are fewer values than fields,
    and values beyond the last field have no effect on the entry. *)
Theorem NewPermission_bounds (fields : list query.Field)
    (values more : list sqltypes.Value) :
  (NewUserPermission fields values = None ↔ length values < length fields) ∧
  (NewDbPermission fields values = None ↔ length values < length fields) ∧
  (NewHostPermission fields values = None ↔ length values < length fields) ∧
  (length fields ≤ length values →
     NewUserPermission fields (values ++ more) = NewUserPermission fields values ∧
     NewDbPermission fields (values ++ more) = NewDbPermission fields values ∧
     NewHostPermission fields (values ++ more) = NewHostPermission fields values).
Proof.
  split; [apply construct_None|].
  split; [apply construct_None|].
  split; [apply construct_None|].
  intros Hle. repeat split; by apply construct_ignores_more.
Qed.

Lemma apply_fields_routes {T : Type} (switch : query.Field → string → T → T)
    (proj : T → string) k zero fvs :
  routes_to switch proj k →
  proj (apply_fields switch zero fvs) = default (proj zero) (last_named k fvs).
Proof.
  intros Hr. induction fvs as [|[f v] fvs IH] using rev_ind.
  - by rewrite last_named_nil.
  - rewrite apply_fields_snoc, last_named_snoc, Hr.
    by destruct (decide (query.Name f = k)).
Qed.

Ltac routes :=
  intros f v t;
  unfold UserPermission_switch, DbPermission_switch, HostPermission_switch;
  repeat match goal with
         | |- context [String.eqb (query.Name f) ?k] =>
             destruct (String.eqb_spec (query.Name f) k) as [->|]
         end;
  simpl; repeat case_decide; (done || congruence).

Lemma UserPermission_routes :
  routes_to UserPermission_switch up_Host "Host" ∧
  routes_to UserPermission_switch up_User "User".
Proof. split; routes. Qed.

Lemma DbPermission_routes :
  routes_to DbPermission_switch dp_Host "Host" ∧
  routes_to DbPermission_switch dp_Db "Db" ∧
  routes_to DbPermission_switch dp_User "User".
Proof. repeat split; routes. Qed.

Lemma HostPermission_routes :
  routes_to HostPermission_switch hp_Host "Host" ∧
  routes_to HostPermission_switch hp_Db "Db".
Proof. split; routes. Qed.

(** X7: the identity components of a constructed entry are the string
    forms of the values of the fields named Host, User and Db that the
    kind has: the value of the last field of that name when several
    fields share it, the empty string when no field has it. *)
Theorem NewPermission_identity :
  (∀ fields values up,
     NewUserPermission fields values = Some up →
     up_Host up = default "" (last_value "Host" fields values) ∧
     up_User up = default "" (last_value "User" fields values)) ∧
  (∀ fields values dp,
     NewDbPermission fields values = Some dp →
     dp_Host dp = default "" (last_value "Host" fields values) ∧
     dp_Db dp = default "" (last_value "Db" fields values) ∧
     dp_User dp = default "" (last_value "User" fields values)) ∧
  (∀ fields values hp,
     NewHostPermission fields values = Some hp →
     hp_Host hp = default "" (last_value "Host" fields values) ∧
     hp_Db hp = default "" (last_value "Db" fields values)).
Proof.
  destruct UserPermission_routes as [Hu1 Hu2].
  destruct DbPermission_routes as (Hd1 & Hd2 & Hd3).
  destruct HostPermission_routes as [Hh1 Hh2].
  repeat split; apply construct_Some in H as [_ ->]; unfold last_value;
    by erewrite apply_fields_routes.
Qed.

(** The host is read from its column wherever that column stands. *)
Lemma NewPermission_identity_witness :
  ∃ up, NewUserPermission sample_fields2 sample_values2 = Some up ∧
        up_Host up = "" ∧ up_User up = "u2".
Proof.
  destruct (NewUserPermission sample_fields2 sample_values2) as [up|] eqn:E;
    [|vm_compute in E; discriminate].
  exists up. split; [done|].
  destruct (proj1 NewPermission_identity sample_fields2 sample_values2 up E)
    as [-> ->].
  split; vm_compute; reflexivity.
Defined.

(** *** Primary keys and renderings that tell entries apart *)

Lemma colon_split h1 u1 h2 u2 :
  has_colon h1 = false → has_colon h2 = false →
  h1 +:+ ":" +:+ u1 = h2 +:+ ":" +:+ u2 → h1 = h2 ∧ u1 = u2.
Proof.
  revert h2. induction h1 as [|a h1 IH]; intros [|b h2]; simpl; intros H1 H2 Heq.
  - change (String ":" u1 = String ":" u2) in Heq. by injection Heq as ->.
  - change (String ":" u1 = String b (h2 +:+ ":" +:+ u2)) in Heq.
    injection Heq as <- _. discriminate.
  - change (String a (h1 +:+ ":" +:+ u1) = String ":" u2) in Heq.
    injection Heq as -> _. discriminate.
  - change (String a (h1 +:+ ":" +:+ u1) = String b (h2 +:+ ":" +:+ u2)) in Heq.
    injection Heq as -> Heq.
    apply orb_false_iff in H1 as [_ H1]. apply orb_false_iff in H2 as [_ H2].
    destruct (IH h2 H1 H2 Heq) as [-> ->]. done.
Qed.

(** X8: the primary keys tell entries apart as long as the components
    before the last one hold no colon: two users (or hosts) whose Host
    holds no colon, and two dbs whose Host and Db hold no colon, have the
    same primary key only if all their identity components agree. *)
Theorem PrimaryKey_injective_without_colon :
  (∀ up1 up2,
     has_colon (up_Host up1) = false → has_colon (up_Host up2) = false →
     UserPermissionPrimaryKey up1 = UserPermissionPrimaryKey up2 →
     up_Host up1 = up_Host up2 ∧ up_User up1 = up_User up2) ∧
  (∀ dp1 dp2,
     has_colon (dp_Host dp1) = false → has_colon (dp_Host dp2) = false →
     has_colon (dp_Db dp1) = false → has_colon (dp_Db dp2) = false →
     DbPermissionPrimaryKey dp1 = DbPermissionPrimaryKey dp2 →
     dp_Host dp1 = dp_Host dp2 ∧ dp_Db dp1 = dp_Db dp2 ∧
     dp_User dp1 = dp_User dp2) ∧
  (∀ hp1 hp2,
     has_colon (hp_Host hp1) = false → has_colon (hp_Host hp2) = false →
     HostPermissionPrimaryKey hp1 = HostPermissionPrimaryKey hp2 →
     hp_Host hp1 = hp_Host hp2 ∧ hp_Db hp1 = hp_Db hp2).
Proof.
  split; [|split].
  - intros up1 up2 H1 H2 Hpk. exact (colon_split _ _ _ _ H1 H2 Hpk).
  - intros dp1 dp2 H1 H2 H3 H4 Hpk.
    destruct (colon_split _ _ _ _ H1 H2 Hpk) as [Hh Hrest].
    destruct (colon_split _ _ _ _ H3 H4 Hrest) as [Hd Hu]. done.
  - intros hp1 hp2 H1 H2 Hpk. exact (colon_split _ _ _ _ H1 H2 Hpk).
Qed.

Lemma password_marker_inj (c1 c2 : Z) (s : string) :
  crc64.is_uint64 c1 → crc64.is_uint64 c2 →
  password_marker c1 +:+ s = password_marker c2 +:+ s → c1 = c2.
Proof.
  intros [H1 _] [H2 _]. unfold password_marker, Sprint_uint64.
  destruct (Z.eqb_spec c1 0) as [->|Hn1], (Z.eqb_spec c2 0) as [->|Hn2];
    try done; try (intros Heq; cbv [String.append] in Heq; discriminate).
  intros Heq%GoStringFacts.append_inj_r.
  apply GoStringFacts.append_inj_l, GoStringFacts.append_inj_r in Heq.
  apply (inj pretty) in Heq. by apply Z2N.inj.
Qed.

Lemma ltb_irrefl s : String.ltb s s = false.
Proof.
  destruct (String.ltb s s) eqn:E; [|done].
  destruct (GoStringFacts.lt_irrefl s E).
Qed.

(** X9: a change of password alone is always reported: two user entries
    with the same host, user and privileges and different password
    checksums are rendered differently, and comparing the one with the
    other yields exactly one content mismatch. *)
Theorem password_change_reported (leftName rightName : string)
    (up1 up2 : UserPermission) :
  crc64.is_uint64 (up_PasswordChecksum up1) →
  crc64.is_uint64 (up_PasswordChecksum up2) →
  up_Host up1 = up_Host up2 → up_User up1 = up_User up2 →
  up_Privileges up1 = up_Privileges up2 →
  up_PasswordChecksum up1 ≠ up_PasswordChecksum up2 →
  UserPermissionString up1 ≠ UserPermissionString up2 ∧
  DiffPermissionsToArray leftName (one_user up1) rightName (one_user up2)
  = Some (Some [Error (disagree_error leftName rightName "user"
                         (UserPermissionPrimaryKey up1)
                         (UserPermissionString up1)
                         (UserPermissionString up2))]).
Proof.
  intros H1 H2 Hh Hu Hp Hne.
  assert (Hs : UserPermissionString up1 ≠ UserPermissionString up2).
  { unfold UserPermissionString. fold (password_marker (up_PasswordChecksum up1)).
    fold (password_marker (up_PasswordChecksum up2)). rewrite Hp.
    intros Heq%GoStringFacts.append_inj_l. by apply password_marker_inj in Heq. }
  split; [done|].
  destruct (DiffPermissionsToArray_render leftName (one_user up1)
              rightName (one_user up2)) as [_ ->].
  change (user_view (UserPermissions (one_user up1)))
    with [(UserPermissionPrimaryKey up1, UserPermissionString up1)].
  change (user_view (UserPermissions (one_user up2)))
    with [(UserPermissionPrimaryKey up2, UserPermissionString up2)].
  rewrite merge_records_cons.
  assert (Hpk : UserPermissionPrimaryKey up2 = UserPermissionPrimaryKey up1)
    by (unfold UserPermissionPrimaryKey; by rewrite Hh, Hu).
  rewrite Hpk, ltb_irrefl.
  destruct (String.eqb_spec (UserPermissionString up1) (UserPermissionString up2));
    [done|]. reflexivity.
Qed.

(** The sample user before and after a change of password. *)
Lemma password_change_reported_witness :
  UserPermissionString sample_u1 ≠ UserPermissionString sample_u1_rekeyed ∧
  DiffPermissionsToArray "L" (one_user sample_u1) "R" (one_user sample_u1_rekeyed)
  = Some (Some [Error (disagree_error "L" "R" "user"
                         (UserPermissionPrimaryKey sample_u1)
                         (UserPermissionString sample_u1)
                         (UserPermissionString sample_u1_rekeyed))]).
Proof.
  apply (password_change_reported "L" "R" sample_u1 sample_u1_rekeyed);
    try (vm_compute; done); reflexivity.
Defined.

(** X19: a user whose password column holds the empty string gets the
    checksum zero and is therefore rendered with [NoPassword], exactly
    like a user read without a password column. *)
Theorem empty_password_is_NoPassword (fields : list query.Field)
    (values : list sqltypes.Value) (up : UserPermission) :
  NewUserPermission fields values = Some up →
  last_value "Password" fields values = Some "" →
  up_PasswordChecksum up = 0%Z ∧
  UserPermissionString up =
    "UserPermission NoPassword" +:+ printPrivileges (up_Privileges up).
Proof.
  intros Hnew Hpw. apply construct_Some in Hnew as [_ ->].
  unfold last_value in Hpw.
  assert (Hc : up_PasswordChecksum
                 (apply_fields UserPermission_switch
                    {| up_Host := ""; up_User := ""; up_PasswordChecksum := 0;
                       up_Privileges := ∅ |} (zip fields values)) = 0%Z)
    by (by rewrite apply_fields_checksum, Hpw).
  split; [done|]. unfold UserPermissionString. by rewrite Hc.
Qed.

Lemma empty_password_is_NoPassword_witness :
  ∃ up, NewUserPermission sample_fields2 sample_values_blank = Some up ∧
        up_PasswordChecksum up = 0%Z ∧
        UserPermissionString up =
          "UserPermission NoPassword" +:+ printPrivileges (up_Privileges up).
Proof.
  destruct (NewUserPermission sample_fields2 sample_values_blank) as [up|] eqn:E;
    [|vm_compute in E; discriminate].
  exists up. split; [done|].
  apply (empty_password_is_NoPassword sample_fields2 sample_values_blank up E).
  vm_compute. reflexivity.
Defined.

End ProtoFacts.

(** ** The serving graph *)

Module ZktopoFacts.

Import zktopo.

Section serving_graph_facts.
Variable path_Join : string → string → string.
Context {St : Type} `{!Conn St}.

Lemma length_zero_iff (data : string) :
  Nat.eqb (String.length data) 0 = true ↔ data = "".
Proof. destruct data; simpl; split; (done || discriminate). Qed.

(** C5: [GetSrvKeyspace] returns [topo_ErrNoNode] when the underlying get
    reports the node absent and also when the node holds the empty
    string; it returns an error different from [topo_ErrNoNode] when the
    non-empty value fails to unmarshal, and the unmarshalled descriptor
    otherwise.  [GetSrvVSchema] does the same per cell. *)
Theorem GetSrv_outcomes {SrvKeyspace SrvVSchema : Type}
    `{!JSON SrvKeyspace, !JSON SrvVSchema} :
  (∀ cell keyspace zconn,
     read_outcomes
       (Get (zkPathForSrvKeyspace path_Join cell keyspace) zconn)
       (GetSrvKeyspace (SrvKeyspace := SrvKeyspace) path_Join cell keyspace zconn)) ∧
  (∀ cell zconn,
     read_outcomes
       (Get (zkPathForSrvVSchema path_Join cell) zconn)
       (GetSrvVSchema (SrvVSchema := SrvVSchema) path_Join cell zconn)).
Proof.
  split; intros; unfold read_outcomes, GetSrvKeyspace, GetSrvVSchema;
    destruct (Get _ zconn) as [[data err] zconn']; simpl;
    (repeat split; [intros -> | intros -> -> | intros -> Hne e He
                   | intros -> Hne d Hd]; simpl; try done;
     destruct (Nat.eqb (String.length data) 0) eqn:E;
       try (apply length_zero_iff in E; done);
     rewrite ?He, ?Hd; eauto).
Qed.

(** C6: [GetSrvKeyspaceNames] returns an empty result and no error when
    the keyspace namespace of the cell does not exist, the children
    sorted in ascending order and no error when it exists, and an error
    when the children call fails in any other way. *)
Theorem GetSrvKeyspaceNames_outcomes (cell : string) (zconn : St) :
  list_outcomes (Children (zkPathForSrvKeyspaces path_Join cell) zconn)
                (GetSrvKeyspaceNames path_Join cell zconn).
Proof.
  unfold list_outcomes, GetSrvKeyspaceNames.
  destruct (Children _ zconn) as [[children err] zconn']; simpl.
  repeat split.
  - by intros ->.
  - intros ->. eexists. split; [done|].
    split; [apply GoStringFacts.sort_Strings_Sorted|].
    apply GoStringFacts.sort_Strings_Permutation.
  - intros e -> Hne. destruct e; eauto. done.
Qed.
End serving_graph_facts.

(** *** The model of the coordination service *)

Section fake_facts.
Variable path_Dir : string → string.
Variable path_Base : string → string.




(** A set reports the node absent exactly when it is absent. *)
Lemma fake_Set_NoNode path data version nodes nodes' :
  fake_Set path data version nodes = (Some zookeeper_ErrNoNode, nodes') ↔
  nodes !! path = None ∧ nodes' = nodes.
Proof.
  unfold fake_Set. destruct (nodes !! path) as [nd|].
  - destruct (version_ok version nd); naive_solver.
  - naive_solver.
Qed.

(** [k] applications of [path_Dir]: the ancestor [k] levels up. *)
Lemma ancestor_shift k path :
  Nat.iter k path_Dir (path_Dir path) = Nat.iter (S k) path_Dir path.
Proof. by rewrite Nat.iter_succ_r. Qed.

Lemma ancestor_cycle m i path :
  path = Nat.iter m path_Dir path →
  Nat.iter (i + m) path_Dir path = Nat.iter i path_Dir path.
Proof. intros Hm. rewrite Nat.iter_add. by rewrite <- Hm. Qed.

(** When the node and its first [k] ancestors are absent and the next
    ancestor exists, a recursive create of depth above [k] succeeds: it
    creates the node with the value, keeps every node that existed, and
    adds the missing ancestors only. *)
Lemma CreateRecursive_succeeds k n path data nodes :
  (∀ j, j ≤ k → nodes !! Nat.iter j path_Dir path = None) →
  is_Some (nodes !! Nat.iter (S k) path_Dir path) →
  k < n →
  ∃ nodes',
    CreateRecursive (Conn0 := fake_Conn path_Dir path_Base) path_Dir n path data nodes
      = Some ((path, None), nodes') ∧
    nodes' !! path = Some {| znode_data := data; znode_version := 0 |} ∧
    (∀ q nd, nodes !! q = Some nd → nodes' !! q = Some nd) ∧
    (∀ q, is_Some (nodes' !! q) →
          is_Some (nodes !! q) ∨ ∃ j, j ≤ k ∧ q = Nat.iter j path_Dir path).
Proof.
  revert n path data nodes.
  induction k as [|k IH]; intros n path data nodes Habs Hpres Hn;
    (destruct n as [|n]; [lia|]);
    assert (H0 : nodes !! path = None) by (apply (Habs 0); lia);
    simpl; unfold fake_Create at 1; rewrite H0.
  - simpl in Hpres. destruct Hpres as [nd ->].
    eexists. split; [done|]. split; [by rewrite lookup_insert_eq|].
    split.
    + intros q nd' Hq. rewrite lookup_insert_ne; [done|].
      intros <-. congruence.
    + intros q Hq. destruct (decide (q = path)) as [->|Hne].
      * right. exists 0. done.
      * left. by rewrite lookup_insert_ne in Hq.
  - assert (H1 : nodes !! path_Dir path = None) by (apply (Habs 1); lia).
    rewrite H1.
    destruct (IH n (path_Dir path) "" nodes) as (nodes2 & Hrec & Hdir & Hkeep & Hdom).
    { intros j Hj. rewrite ancestor_shift. apply Habs. lia. }
    { by rewrite ancestor_shift. }
    { lia. }
    rewrite Hrec. simpl. unfold fake_Create.
    assert (Hpath : nodes2 !! path = None).
    { destruct (nodes2 !! path) as [nd|] eqn:E; [|done].
      destruct (Hdom path) as [[nd' Hq]|(j & Hj & Hq)]; [by eexists| |].
      - congruence.
      - rewrite ancestor_shift in Hq.
        pose proof (ancestor_cycle (S j) (S (S k) - S j) path Hq) as Hcyc.
        replace (S (S k) - S j + S j) with (S (S k)) in Hcyc by lia.
        rewrite Hcyc in Hpres. rewrite Habs in Hpres by lia.
        by destruct Hpres. }
    rewrite Hpath, Hdir.
    eexists. split; [done|]. split; [by rewrite lookup_insert_eq|].
    split.
    + intros q nd' Hq. rewrite lookup_insert_ne; [by apply Hkeep|].
      intros <-. congruence.
    + intros q Hq. destruct (decide (q = path)) as [->|Hne].
      * right. exists 0. split; [lia|done].
      * rewrite lookup_insert_ne in Hq by done.
        destruct (Hdom q Hq) as [?|(j & Hj & ->)]; [by left|].
        right. exists (S j). split; [lia|]. by rewrite ancestor_shift.
Qed.

(** Among the node and its ancestors, the nearest one that exists. *)
Lemma nearest_ancestor (nodes : gmap string znode) path k :
  is_Some (nodes !! Nat.iter k path_Dir path) →
  ∃ k0, k0 ≤ k ∧ is_Some (nodes !! Nat.iter k0 path_Dir path) ∧
        ∀ j, j < k0 → nodes !! Nat.iter j path_Dir path = None.
Proof.
  induction k as [k IH] using lt_wf_ind. intros Hk.
  destruct (decide (Exists (λ j, is_Some (nodes !! Nat.iter j path_Dir path))
                      (seq 0 k))) as [Hex|Hno].
  - apply Exists_exists in Hex as (j & Hj & Hpres).
    apply elem_of_seq in Hj.
    destruct (IH j ltac:(lia) Hpres) as (k0 & ? & ? & ?).
    exists k0. split; [lia|done].
  - exists k. split; [done|]. split; [done|].
    intros j Hj. apply eq_None_not_Some. intros Hpres. apply Hno.
    apply Exists_exists. exists j. split; [|done]. apply elem_of_seq. lia.
Qed.
End fake_facts.

(** *** The keyspace descriptor over the model *)

Section lifecycle.
Variable path_Join : string → string → string.
Variable path_Dir : string → string.
Variable path_Base : string → string.
Context {SrvKeyspace : Type} `{!JSON SrvKeyspace}.


(** X18: an update succeeds whenever the node or one of its ancestors
    exists within the depth bound [n]; over a tree with a root and Go's
    [path.Dir] that is every update with [n] at least the depth of the
    key's path. *)
Lemma UpdateSrvKeyspace_succeeds (n k : nat) (cell keyspace : string)
    (d : SrvKeyspace) (data : string) (nodes : gmap string znode) :
  json_MarshalIndent d = (data, None) →
  is_Some (nodes !! Nat.iter k path_Dir
                     (zkPathForSrvKeyspace path_Join cell keyspace)) →
  k ≤ n →
  ∃ nodes',
    UpdateSrvKeyspace (Conn0 := fake_Conn path_Dir path_Base)
      path_Join path_Dir n cell keyspace d nodes = Some (None, nodes').
Proof.
  intros Hdata Hk Hn. unfold UpdateSrvKeyspace. rewrite Hdata.
  set (path := zkPathForSrvKeyspace path_Join cell keyspace) in *.
  destruct (nearest_ancestor path_Dir nodes path k Hk) as (k0 & Hk0 & Hpres & Habs).
  simpl. unfold fake_Set. destruct k0 as [|k0].
  - simpl in Hpres. destruct Hpres as [nd ->]. simpl. eauto.
  - assert (H0 : nodes !! path = None) by (apply (Habs 0); lia).
    rewrite H0.
    destruct (CreateRecursive_succeeds path_Dir path_Base k0 n path data nodes)
      as (nodes' & -> & _); [intros j Hj; apply Habs; lia|done|lia|].
    simpl. eauto.
Qed.
End lifecycle.

Lemma sample_JSON_reads_back (d data : string) :
  json_MarshalIndent (JSON := sample_JSON) d = (data, None) →
  data ≠ "" ∧ json_Unmarshal (JSON := sample_JSON) data = Ok d.
Proof. intros [= <-]. done. Qed.


(** A node holding the empty string reads as not found. *)
Lemma GetSrv_outcomes_witness :
  GetSrvKeyspace (Conn0 := fake_Conn sample_Dir sample_Base) (JSON0 := sample_JSON)
    sample_Join "c" "k"
    {[ sample_Join (sample_Join (zkPathForCell "c") "ns") "k"
         := {| znode_data := ""; znode_version := 0 |} ]}
  = ((None, Some topo_ErrNoNode),
     {[ sample_Join (sample_Join (zkPathForCell "c") "ns") "k"
          := {| znode_data := ""; znode_version := 0 |} ]}).
Proof.
  apply (proj1 (GetSrv_outcomes (Conn0 := fake_Conn sample_Dir sample_Base)
                  (JSON0 := sample_JSON) (JSON1 := sample_JSON) sample_Join)
           "c" "k"); vm_compute; reflexivity.
Defined.

(** A cell without a keyspace namespace lists no keyspaces. *)
Lemma GetSrvKeyspaceNames_outcomes_witness :
  GetSrvKeyspaceNames (Conn0 := fake_Conn sample_Dir sample_Base)
    sample_Join "c" sample_nodes = (([], None), sample_nodes).
Proof.
  apply (GetSrvKeyspaceNames_outcomes
           (Conn0 := fake_Conn sample_Dir sample_Base) sample_Join "c");
    vm_compute; reflexivity.
Defined.

(** Over a closed connection the failure of the children call is what
    the caller gets. *)
Example GetSrvKeyspaceNames_closed :
  GetSrvKeyspaceNames (Conn0 := closed_Conn) sample_Join "c" tt
  = (([], Some zookeeper_ErrConnectionClosed), tt).
Proof. reflexivity. Qed.

(** Over a closed connection a read fails with the connection's error,
    not with not-found. *)
Example GetSrvKeyspace_closed :
  GetSrvKeyspace (Conn0 := closed_Conn) (JSON0 := sample_JSON) sample_Join "c" "k" tt
  = ((None, Some zookeeper_ErrConnectionClosed), tt).
Proof. reflexivity. Qed.

(** The scenario of the specification: after the keyspaces "a", "c" and
    "b" were created in a cell, they are listed as a, b, c. *)
Example GetSrvKeyspaceNames_sorted_sample :
  (GetSrvKeyspaceNames (Conn0 := fake_Conn sample_Dir sample_Base) sample_Join "c"
     (after_update "c" "b" "3"
        (after_update "c" "c" "2" (after_update "c" "a" "1" sample_nodes)))).1
  = (["a"; "b"; "c"], None).
Proof. vm_compute. reflexivity. Qed.

(** *** Paths *)

(** X10: different cells have different roots in the tree. *)
Theorem zkPathForCell_distinct (cell1 cell2 : string) :
  cell1 ≠ cell2 → zkPathForCell cell1 ≠ zkPathForCell cell2.
Proof.
  intros Hne Heq. unfold zkPathForCell in Heq.
  by apply GoStringFacts.append_inj_l, GoStringFacts.append_inj_r in Heq.
Qed.

Lemma zkPathForCell_distinct_witness :
  zkPathForCell "c1" ≠ zkPathForCell "c2".
Proof. apply (zkPathForCell_distinct "c1" "c2"). discriminate. Defined.

(** *** Over any connection *)

Section any_connection.
Variable path_Join : string → string → string.
Context {St : Type} `{!Conn St}.
Context {SrvKeyspace SrvVSchema : Type} `{!JSON SrvKeyspace, !JSON SrvVSchema}.

(** X11: whatever the connection and the encoding do, a read returns
    either a descriptor and no error or no descriptor and an error; a
    listing that returns an error returns no names; and none of the
    reads, the listing and the delete ever hands the service's own
    not-found error to the caller. *)
Theorem results_well_formed :
  (∀ cell keyspace (zconn : St),
     let ret := (GetSrvKeyspace (SrvKeyspace := SrvKeyspace)
                   path_Join cell keyspace zconn).1 in
     value_xor_error ret ∧ ret.2 ≠ Some zookeeper_ErrNoNode) ∧
  (∀ cell (zconn : St),
     let ret := (GetSrvVSchema (SrvVSchema := SrvVSchema)
                   path_Join cell zconn).1 in
     value_xor_error ret ∧ ret.2 ≠ Some zookeeper_ErrNoNode) ∧
  (∀ cell (zconn : St),
     let ret := (GetSrvKeyspaceNames path_Join cell zconn).1 in
     (ret.2 ≠ None → ret.1 = []) ∧ ret.2 ≠ Some zookeeper_ErrNoNode) ∧
  (∀ cell keyspace (zconn : St),
     (DeleteSrvKeyspace path_Join cell keyspace zconn).1
     ≠ Some zookeeper_ErrNoNode).
Proof.
  split; [|split; [|split]]; cbv zeta; intros.
  - unfold GetSrvKeyspace.
    destruct (Get _ zconn) as [[data [e|]] zconn']; simpl.
    + by destruct e.
    + destruct (Nat.eqb (String.length data) 0); [done|].
      by destruct (json_Unmarshal data).
  - unfold GetSrvVSchema.
    destruct (Get _ zconn) as [[data [e|]] zconn']; simpl.
    + by destruct e.
    + destruct (Nat.eqb (String.length data) 0); [done|].
      by destruct (json_Unmarshal data).
  - unfold GetSrvKeyspaceNames.
    destruct (Children _ zconn) as [[children [e|]] zconn']; simpl; [|done].
    by destruct e.
  - unfold DeleteSrvKeyspace.
    destruct (Delete _ _ zconn) as [[e|] zconn']; simpl; [|done].
    by destruct e.
Qed.
End any_connection.

(** X12: the names returned by [GetSrvKeyspaceNames] do not depend on the
    order in which the service lists the children: two listings of the
    same names in different orders give the same result. *)
Theorem GetSrvKeyspaceNames_any_order (path_Join : string → string → string)
    {St1 St2 : Type} `{!Conn St1, !Conn St2}
    (cell : string) (zconn1 : St1) (zconn2 : St2) :
  (Children (zkPathForSrvKeyspaces path_Join cell) zconn1).1.2 = None →
  (Children (zkPathForSrvKeyspaces path_Join cell) zconn2).1.2 = None →
  (Children (zkPathForSrvKeyspaces path_Join cell) zconn1).1.1
  ≡ₚ (Children (zkPathForSrvKeyspaces path_Join cell) zconn2).1.1 →
  (GetSrvKeyspaceNames path_Join cell zconn1).1
  = (GetSrvKeyspaceNames path_Join cell zconn2).1.
Proof.
  unfold GetSrvKeyspaceNames.
  destruct (Children _ zconn1) as [[c1 e1] z1].
  destruct (Children _ zconn2) as [[c2 e2] z2]. simpl.
  intros -> -> Hperm. simpl. f_equal.
  by apply GoStringFacts.sort_Strings_perm_eq.
Qed.

Lemma GetSrvKeyspaceNames_any_order_witness :
  (GetSrvKeyspaceNames (Conn0 := listing_Conn) sample_Join "c" ["b"; "a"]).1
  = (GetSrvKeyspaceNames (Conn0 := listing_Conn) sample_Join "c" ["a"; "b"]).1.
Proof.
  apply (GetSrvKeyspaceNames_any_order sample_Join (Conn0 := listing_Conn)
           (Conn1 := listing_Conn) "c" ["b"; "a"] ["a"; "b"]);
    [reflexivity|reflexivity|].
  simpl. apply perm_swap.
Defined.

(** *** The store over the model, key by key *)

Section store_facts.
Variable path_Join : string → string → string.
Variable path_Dir : string → string.
Variable path_Base : string → string.
Context {SrvKeyspace SrvVSchema : Type} `{!JSON SrvKeyspace, !JSON SrvVSchema}.

Lemma UpdateSrvKeyspace_run n cell keyspace (d : SrvKeyspace) data nodes :
  json_MarshalIndent d = (data, None) →
  UpdateSrvKeyspace (Conn0 := fake_Conn path_Dir path_Base)
    path_Join path_Dir n cell keyspace d nodes
  = set_then_create path_Dir path_Base n
      (zkPathForSrvKeyspace path_Join cell keyspace) data nodes.
Proof.
  intros Hdata. unfold UpdateSrvKeyspace, set_then_create. rewrite Hdata.
  simpl. unfold fake_Set.
  by destruct (nodes !! zkPathForSrvKeyspace path_Join cell keyspace).
Qed.

Lemma UpdateSrvVSchema_run n cell (d : SrvVSchema) data nodes :
  json_MarshalIndent d = (data, None) →
  UpdateSrvVSchema (Conn0 := fake_Conn path_Dir path_Base)
    path_Join path_Dir n cell d nodes
  = set_then_create path_Dir path_Base n
      (zkPathForSrvVSchema path_Join cell) data nodes.
Proof.
  intros Hdata. unfold UpdateSrvVSchema, set_then_create. rewrite Hdata.
  simpl. unfold fake_Set.
  by destruct (nodes !! zkPathForSrvVSchema path_Join cell).
Qed.

Lemma GetSrvKeyspace_visible cell keyspace nodes :
  GetSrvKeyspace (SrvKeyspace := SrvKeyspace)
    (Conn0 := fake_Conn path_Dir path_Base) path_Join cell keyspace nodes
  = (decoded "SrvKeyspace"
       (visible nodes (zkPathForSrvKeyspace path_Join cell keyspace)), nodes).
Proof.
  unfold GetSrvKeyspace, visible, decoded. simpl. unfold fake_Get.
  destruct (nodes !! _) as [[data v]|]; simpl; [|done].
  destruct (Nat.eqb (String.length data) 0) eqn:E.
  - by apply length_zero_iff in E as ->.
  - destruct (decide (data = "")) as [->|]; [discriminate|].
    by destruct (json_Unmarshal data).
Qed.

Lemma GetSrvVSchema_visible cell nodes :
  GetSrvVSchema (SrvVSchema := SrvVSchema)
    (Conn0 := fake_Conn path_Dir path_Base) path_Join cell nodes
  = (decoded "SrvVSchema"
       (visible nodes (zkPathForSrvVSchema path_Join cell)), nodes).
Proof.
  unfold GetSrvVSchema, visible, decoded. simpl. unfold fake_Get.
  destruct (nodes !! _) as [[data v]|]; simpl; [|done].
  destruct (Nat.eqb (String.length data) 0) eqn:E.
  - by apply length_zero_iff in E as ->.
  - destruct (decide (data = "")) as [->|]; [discriminate|].
    by destruct (json_Unmarshal data).
Qed.

(** A create changes what is read at its own path only, and not even
    there when it writes the empty value. *)
Lemma fake_Create_visible path data nodes r nodes' :
  fake_Create path_Dir path data nodes = (r, nodes') →
  ∀ q, q ≠ path ∨ data = "" → visible nodes' q = visible nodes q.
Proof.
  unfold fake_Create. destruct (nodes !! path) eqn:E; [by intros [= <- <-]|].
  destruct (nodes !! path_Dir path); [|by intros [= <- <-]].
  intros [= <- <-] q Hq. unfold visible.
  destruct (decide (q = path)) as [->|Hne].
  - rewrite lookup_insert_eq, E. simpl. by destruct Hq as [?| ->].
  - by rewrite lookup_insert_ne.
Qed.

Lemma fake_Create_failed path data nodes pc e nodes' :
  fake_Create path_Dir path data nodes = ((pc, Some e), nodes') → nodes' = nodes.
Proof.
  unfold fake_Create. destruct (nodes !! path); [by intros [= _ _ <-]|].
  destruct (nodes !! path_Dir path); [discriminate|by intros [= _ _ <-]].
Qed.

(** The parents that a recursive create adds hold the empty value, so
    that it changes what is read at the path of the node only. *)
Lemma CreateRecursive_visible n path data nodes r nodes' :
  CreateRecursive (Conn0 := fake_Conn path_Dir path_Base) path_Dir n path data nodes
    = Some (r, nodes') →
  ∀ q, q ≠ path ∨ data = "" → visible nodes' q = visible nodes q.
Proof.
  revert path data nodes r nodes'.
  induction n as [|n IH]; intros path data nodes r nodes'; [discriminate|].
  simpl.
  destruct (fake_Create path_Dir path data nodes) as [[pc err] nodes1] eqn:E1.
  pose proof (fake_Create_visible _ _ _ _ _ E1) as H1.
  destruct err as [e|]; [|by intros [= <- <-]].
  destruct e; try by intros [= <- <-].
  apply fake_Create_failed in E1 as ->.
  destruct (CreateRecursive _ n (path_Dir path) "" nodes)
    as [[[pc2 err2] nodes2]|] eqn:E2; simpl; [|discriminate].
  pose proof (IH _ _ _ _ _ E2) as H2.
  destruct err2 as [e2|].
  - intros [= <- <-] q _. apply H2. by right.
  - intros [= E3] q Hq.
    rewrite (fake_Create_visible _ _ _ _ _ E3 q Hq). apply H2. by right.
Qed.

Lemma set_then_create_visible n path data nodes r nodes' :
  set_then_create path_Dir path_Base n path data nodes = Some (r, nodes') →
  ∀ q, q ≠ path → visible nodes' q = visible nodes q.
Proof.
  unfold set_then_create. destruct (nodes !! path) as [nd|].
  - intros [= <- <-] q Hq. unfold visible. by rewrite lookup_insert_ne.
  - destruct (CreateRecursive _ n path data nodes)
      as [[[pc err] nodes1]|] eqn:E; simpl; [|discriminate].
    intros [= <- <-] q Hq. eapply CreateRecursive_visible; [done|by left].
Qed.

Lemma fake_Create_parent path data nodes pc nodes' :
  fake_Create path_Dir path data nodes = ((pc, None), nodes') →
  nodes' !! path = Some {| znode_data := data; znode_version := 0 |} ∧
  is_Some (nodes' !! path_Dir path).
Proof.
  unfold fake_Create. destruct (nodes !! path); [discriminate|].
  destruct (nodes !! path_Dir path) as [nd|] eqn:E; [|discriminate].
  intros [= _ <-]. split; [by rewrite lookup_insert_eq|].
  apply lookup_insert_is_Some'. right. by rewrite E.
Qed.

(** A successful recursive create leaves the node with the value written
    and under an existing parent. *)
Lemma CreateRecursive_parent n path data nodes pc nodes' :
  CreateRecursive (Conn0 := fake_Conn path_Dir path_Base) path_Dir n path data nodes
    = Some ((pc, None), nodes') →
  nodes' !! path = Some {| znode_data := data; znode_version := 0 |} ∧
  is_Some (nodes' !! path_Dir path).
Proof.
  destruct n as [|n]; [discriminate|]. simpl.
  destruct (fake_Create path_Dir path data nodes) as [[pc1 [e|]] nodes1] eqn:E1.
  - destruct e; try discriminate.
    destruct (CreateRecursive _ n _ _ nodes1) as [[[pc2 [e2|]] nodes2]|];
      simpl; try discriminate.
    intros [= E3]. by eapply fake_Create_parent.
  - intros [= -> ->]. by eapply fake_Create_parent.
Qed.

Lemma convertError_None err : convertError err = None → err = None.
Proof. destruct err as [e|]; [by destruct e|done]. Qed.

Lemma set_then_create_written n path data nodes nodes' :
  set_then_create path_Dir path_Base n path data nodes = Some (None, nodes') →
  (∃ nd, nodes' !! path = Some nd ∧ znode_data nd = data) ∧
  ((is_Some (nodes !! path) → is_Some (nodes !! path_Dir path)) →
   is_Some (nodes' !! path_Dir path)).
Proof.
  unfold set_then_create. destruct (nodes !! path) as [nd|] eqn:E.
  - intros [= <-]. split; [eexists; by rewrite lookup_insert_eq|].
    intros Hp. apply lookup_insert_is_Some'. right. by apply Hp.
  - destruct (CreateRecursive _ n path data nodes)
      as [[[pc err] nodes1]|] eqn:Hcr; simpl; [|discriminate].
    intros [= Herr%convertError_None <-]. subst err.
    apply CreateRecursive_parent in Hcr as [Hpath Hdir].
    split; [by eexists|done].
Qed.

Lemma set_then_create_succeeds n k path data nodes :
  is_Some (nodes !! Nat.iter k path_Dir path) → k ≤ n →
  ∃ nodes', set_then_create path_Dir path_Base n path data nodes
            = Some (None, nodes').
Proof.
  intros Hk Hn. unfold set_then_create.
  destruct (nearest_ancestor path_Dir nodes path k Hk) as (k0 & Hk0 & Hpres & Habs).
  destruct k0 as [|k0].
  - simpl in Hpres. destruct Hpres as [nd ->]. eauto.
  - assert (H0 : nodes !! path = None) by (apply (Habs 0); lia).
    rewrite H0.
    destruct (CreateRecursive_succeeds path_Dir path_Base k0 n path data nodes)
      as (nodes' & -> & _); [intros j Hj; apply Habs; lia|done|lia|].
    simpl. eauto.
Qed.

Lemma visible_written (nodes : gmap string znode) path nd :
  nodes !! path = Some nd → znode_data nd ≠ "" →
  visible nodes path = Some (znode_data nd).
Proof. intros Hl Hne. unfold visible. rewrite Hl. by destruct (decide _). Qed.

(** X13: over the model, with an encoding that reads back what it wrote:
    [GetSrvVSchema] returns [topo_ErrNoNode] for a cell whose node was
    never created; after a successful [UpdateSrvVSchema] it returns the
    descriptor written; and [UpdateSrvVSchema] does succeed whenever the
    node or one of its ancestors exists within the depth bound. *)
Theorem SrvVSchema_round_trip (n : nat) (cell : string) (d : SrvVSchema)
    (nodes : gmap string znode) :
  (∀ (d : SrvVSchema) data, json_MarshalIndent d = (data, None) →
                            data ≠ "" ∧ json_Unmarshal data = Ok d) →
  (nodes !! zkPathForSrvVSchema path_Join cell = None →
     GetSrvVSchema (SrvVSchema := SrvVSchema)
       (Conn0 := fake_Conn path_Dir path_Base) path_Join cell nodes
     = ((None, Some topo_ErrNoNode), nodes)) ∧
  (∀ nodes',
     UpdateSrvVSchema (Conn0 := fake_Conn path_Dir path_Base)
       path_Join path_Dir n cell d nodes = Some (None, nodes') →
     GetSrvVSchema (Conn0 := fake_Conn path_Dir path_Base) path_Join cell nodes'
     = ((Some d, None), nodes')) ∧
  (∀ k, (json_MarshalIndent d).2 = None →
     is_Some (nodes !! Nat.iter k path_Dir (zkPathForSrvVSchema path_Join cell)) →
     k ≤ n →
     ∃ nodes',
       UpdateSrvVSchema (Conn0 := fake_Conn path_Dir path_Base)
         path_Join path_Dir n cell d nodes = Some (None, nodes')).
Proof.
  intros Hjson. split; [|split].
  - intros Hnone. rewrite GetSrvVSchema_visible. unfold visible.
    by rewrite Hnone.
  - intros nodes' Hupd.
    destruct (json_MarshalIndent d) as [data [e|]] eqn:Hdata.
    { unfold UpdateSrvVSchema in Hupd. by rewrite Hdata in Hupd. }
    destruct (Hjson d data Hdata) as [Hne Hback].
    rewrite (UpdateSrvVSchema_run _ _ _ _ _ Hdata) in Hupd.
    apply set_then_create_written in Hupd as [(nd & Hl & <-) _].
    rewrite GetSrvVSchema_visible, (visible_written _ _ _ Hl Hne).
    simpl. by rewrite Hback.
  - intros k Hdata Hk Hn.
    destruct (json_MarshalIndent d) as [data err] eqn:E. simpl in Hdata.
    subst err. rewrite (UpdateSrvVSchema_run _ _ _ _ _ E).
    by eapply set_then_create_succeeds.
Qed.

(** X14: the last write wins.  After a successful [UpdateSrvKeyspace],
    a further [UpdateSrvKeyspace] of the same key succeeds whatever the
    depth bound, creates nothing, and a [GetSrvKeyspace] then returns
    the descriptor written last. *)
Theorem UpdateSrvKeyspace_overwrites (n1 n2 : nat) (cell keyspace : string)
    (d1 d2 : SrvKeyspace) (nodes nodes1 : gmap string znode) :
  (∀ (d : SrvKeyspace) data, json_MarshalIndent d = (data, None) →
                             data ≠ "" ∧ json_Unmarshal data = Ok d) →
  UpdateSrvKeyspace (Conn0 := fake_Conn path_Dir path_Base)
    path_Join path_Dir n1 cell keyspace d1 nodes = Some (None, nodes1) →
  (json_MarshalIndent d2).2 = None →
  ∃ nodes2,
    UpdateSrvKeyspace (Conn0 := fake_Conn path_Dir path_Base)
      path_Join path_Dir n2 cell keyspace d2 nodes1 = Some (None, nodes2) ∧
    GetSrvKeyspace (Conn0 := fake_Conn path_Dir path_Base)
      path_Join cell keyspace nodes2 = ((Some d2, None), nodes2) ∧
    (∀ q, is_Some (nodes2 !! q) ↔ is_Some (nodes1 !! q)).
Proof.
  intros Hjson Hupd Hdata2.
  destruct (json_MarshalIndent d1) as [data1 [e|]] eqn:Hdata1.
  { unfold UpdateSrvKeyspace in Hupd. by rewrite Hdata1 in Hupd. }
  rewrite (UpdateSrvKeyspace_run _ _ _ _ _ _ Hdata1) in Hupd.
  apply set_then_create_written in Hupd as [(nd & Hl & _) _].
  destruct (json_MarshalIndent d2) as [data2 err] eqn:E. simpl in Hdata2.
  subst err. destruct (Hjson d2 data2 E) as [Hne Hback].
  rewrite (UpdateSrvKeyspace_run _ _ _ _ _ _ E).
  unfold set_then_create. rewrite Hl.
  eexists. split; [done|]. split.
  - rewrite GetSrvKeyspace_visible.
    erewrite visible_written; [|by rewrite lookup_insert_eq|done].
    simpl. by rewrite Hback.
  - intros q. rewrite lookup_insert_is_Some'. split; [|by right].
    intros [<-|?]; [by eexists|done].
Qed.

(** X15: [DeleteSrvKeyspace] is not idempotent.  Deleting a key whose
    node is absent returns [topo_ErrNoNode]; a successful delete removes
    the node of the key and nothing else, and deleting the same key
    again returns [topo_ErrNoNode]; a delete that returns an error leaves
    the tree as it was. *)
Theorem DeleteSrvKeyspace_not_idempotent (cell keyspace : string)
    (nodes : gmap string znode) :
  (nodes !! zkPathForSrvKeyspace path_Join cell keyspace = None →
     DeleteSrvKeyspace (Conn0 := fake_Conn path_Dir path_Base)
       path_Join cell keyspace nodes = (Some topo_ErrNoNode, nodes)) ∧
  (∀ nodes',
     DeleteSrvKeyspace (Conn0 := fake_Conn path_Dir path_Base)
       path_Join cell keyspace nodes = (None, nodes') →
     nodes' = delete (zkPathForSrvKeyspace path_Join cell keyspace) nodes ∧
     DeleteSrvKeyspace (Conn0 := fake_Conn path_Dir path_Base)
       path_Join cell keyspace nodes' = (Some topo_ErrNoNode, nodes')) ∧
  (∀ e nodes',
     DeleteSrvKeyspace (Conn0 := fake_Conn path_Dir path_Base)
       path_Join cell keyspace nodes = (Some e, nodes') →
     nodes' = nodes).
Proof.
  unfold DeleteSrvKeyspace. simpl. unfold fake_Delete.
  set (path := zkPathForSrvKeyspace path_Join cell keyspace).
  split; [|split].
  - by intros ->.
  - intros nodes'. destruct (nodes !! path) as [nd|]; [|discriminate].
    destruct (negb (version_ok (-1) nd)); [discriminate|].
    destruct (children_of path_Dir path nodes); [|discriminate].
    intros [= <-]. split; [done|]. by rewrite lookup_delete_eq.
  - intros e nodes'. destruct (nodes !! path) as [nd|]; [|by intros [= _ <-]].
    destruct (negb (version_ok (-1) nd)); [by intros [= _ <-]|].
    destruct (children_of path_Dir path nodes); [discriminate|by intros [= _ <-]].
Qed.

Lemma UpdateSrvKeyspace_visible n cell keyspace (d : SrvKeyspace) nodes r nodes' :
  UpdateSrvKeyspace (Conn0 := fake_Conn path_Dir path_Base)
    path_Join path_Dir n cell keyspace d nodes = Some (r, nodes') →
  ∀ q, q ≠ zkPathForSrvKeyspace path_Join cell keyspace →
       visible nodes' q = visible nodes q.
Proof.
  intros Hupd. destruct (json_MarshalIndent d) as [data [e|]] eqn:Hdata.
  - unfold UpdateSrvKeyspace in Hupd. rewrite Hdata in Hupd.
    by injection Hupd as _ <-.
  - rewrite (UpdateSrvKeyspace_run _ _ _ _ _ _ Hdata) in Hupd.
    by eapply set_then_create_visible.
Qed.

Lemma DeleteSrvKeyspace_visible cell keyspace nodes r nodes' :
  DeleteSrvKeyspace (Conn0 := fake_Conn path_Dir path_Base)
    path_Join cell keyspace nodes = (r, nodes') →
  ∀ q, q ≠ zkPathForSrvKeyspace path_Join cell keyspace →
       visible nodes' q = visible nodes q.
Proof.
  unfold DeleteSrvKeyspace. simpl. unfold fake_Delete.
  set (path := zkPathForSrvKeyspace path_Join cell keyspace).
  destruct (nodes !! path) as [nd|]; [|by intros [= _ <-]].
  destruct (negb (version_ok (-1) nd)); [by intros [= _ <-]|].
  destruct (children_of path_Dir path nodes); [|by intros [= _ <-]].
  intros [= _ <-] q Hq. unfold visible. by rewrite lookup_delete_ne.
Qed.

(** X16: keys are independent.  Whether it succeeds or fails, an
    [UpdateSrvKeyspace] or a [DeleteSrvKeyspace] of one key changes
    neither what [GetSrvKeyspace] returns for a key at another path nor
    what [GetSrvVSchema] returns for a cell whose descriptor is at
    another path: the parents that an update creates hold the empty
    value, which reads as not found just like an absent node. *)
Theorem writes_leave_other_keys (n : nat) (cell keyspace : string)
    (d : SrvKeyspace) (nodes : gmap string znode) :
  (∀ r nodes',
     UpdateSrvKeyspace (Conn0 := fake_Conn path_Dir path_Base)
       path_Join path_Dir n cell keyspace d nodes = Some (r, nodes') ∨
     DeleteSrvKeyspace (Conn0 := fake_Conn path_Dir path_Base)
       path_Join cell keyspace nodes = (r, nodes') →
     (∀ cell' keyspace',
        zkPathForSrvKeyspace path_Join cell' keyspace'
        ≠ zkPathForSrvKeyspace path_Join cell keyspace →
        (GetSrvKeyspace (SrvKeyspace := SrvKeyspace)
           (Conn0 := fake_Conn path_Dir path_Base)
           path_Join cell' keyspace' nodes').1
        = (GetSrvKeyspace (SrvKeyspace := SrvKeyspace)
             (Conn0 := fake_Conn path_Dir path_Base)
             path_Join cell' keyspace' nodes).1) ∧
     (∀ cell',
        zkPathForSrvVSchema path_Join cell'
        ≠ zkPathForSrvKeyspace path_Join cell keyspace →
        (GetSrvVSchema (SrvVSchema := SrvVSchema)
           (Conn0 := fake_Conn path_Dir path_Base) path_Join cell' nodes').1
        = (GetSrvVSchema (SrvVSchema := SrvVSchema)
             (Conn0 := fake_Conn path_Dir path_Base) path_Join cell' nodes).1)).
Proof.
  intros r nodes' Hw.
  assert (Hvis : ∀ q, q ≠ zkPathForSrvKeyspace path_Join cell keyspace →
                      visible nodes' q = visible nodes q).
  { destruct Hw as [Hupd|Hdel].
    - by eapply UpdateSrvKeyspace_visible.
    - by eapply DeleteSrvKeyspace_visible. }
  split.
  - intros cell' keyspace' Hne. rewrite !GetSrvKeyspace_visible. simpl.
    by rewrite Hvis.
  - intros cell' Hne. rewrite !GetSrvVSchema_visible. simpl. by rewrite Hvis.
Qed.

Lemma fake_Children_lists ns q (nodes : gmap string znode) :
  is_Some (nodes !! ns) → is_Some (nodes !! q) → q ≠ ns → path_Dir q = ns →
  ∃ children,
    fake_Children path_Dir path_Base ns nodes = ((children, None), nodes) ∧
    path_Base q ∈ children.
Proof.
  intros [nd Hns] [nq Hq] Hne Hdir. unfold fake_Children. rewrite Hns.
  eexists. split; [done|].
  apply list_elem_of_fmap_2. apply list_elem_of_filter. split; [done|].
  apply list_elem_of_fmap. exists (q, nq). split; [done|].
  by apply elem_of_map_to_list.
Qed.

(** X17: a keyspace that was written is listed.  When the path of the
    key lies directly under the keyspace namespace of its cell, its last
    component being the keyspace, and the tree holds no node without its
    parent at the path of the key, a successful [UpdateSrvKeyspace] is
    followed by a [GetSrvKeyspaceNames] that returns no error and a list
    holding the keyspace. *)
Theorem UpdateSrvKeyspace_listed (n : nat) (cell keyspace : string)
    (d : SrvKeyspace) (nodes nodes' : gmap string znode) :
  path_Dir (zkPathForSrvKeyspace path_Join cell keyspace)
  = zkPathForSrvKeyspaces path_Join cell →
  path_Base (zkPathForSrvKeyspace path_Join cell keyspace) = keyspace →
  zkPathForSrvKeyspace path_Join cell keyspace
  ≠ zkPathForSrvKeyspaces path_Join cell →
  (is_Some (nodes !! zkPathForSrvKeyspace path_Join cell keyspace) →
   is_Some (nodes !! zkPathForSrvKeyspaces path_Join cell)) →
  UpdateSrvKeyspace (Conn0 := fake_Conn path_Dir path_Base)
    path_Join path_Dir n cell keyspace d nodes = Some (None, nodes') →
  ∃ names,
    GetSrvKeyspaceNames (Conn0 := fake_Conn path_Dir path_Base)
      path_Join cell nodes' = ((names, None), nodes') ∧
    keyspace ∈ names ∧ StronglySorted String.le names.
Proof.
  intros Hdir Hbase Hne Htree Hupd.
  destruct (json_MarshalIndent d) as [data [e|]] eqn:Hdata.
  { unfold UpdateSrvKeyspace in Hupd. by rewrite Hdata in Hupd. }
  rewrite (UpdateSrvKeyspace_run _ _ _ _ _ _ Hdata) in Hupd.
  apply set_then_create_written in Hupd as [(nd & Hl & _) Hparent].
  rewrite Hdir in Hparent. specialize (Hparent Htree).
  destruct (fake_Children_lists (zkPathForSrvKeyspaces path_Join cell)
              (zkPathForSrvKeyspace path_Join cell keyspace) nodes')
    as (children & Hch & Hin); [done|by eexists|done|done|].
  rewrite Hbase in Hin.
  unfold GetSrvKeyspaceNames. simpl. rewrite Hch.
  eexists. split; [done|]. split.
  - by rewrite GoStringFacts.sort_Strings_Permutation.
  - apply GoStringFacts.sort_Strings_Sorted.
Qed.

End store_facts.

(** On the sample tree the descriptor of cell "c" is not found at first
    and is read back after an update. *)
Lemma SrvVSchema_round_trip_witness :
  GetSrvVSchema (Conn0 := fake_Conn sample_Dir sample_Base) (JSON1 := sample_JSON)
    sample_Join "c" sample_nodes
    = ((None, Some topo_ErrNoNode), sample_nodes) ∧
  GetSrvVSchema (Conn0 := fake_Conn sample_Dir sample_Base) (JSON1 := sample_JSON)
    sample_Join "c" (after_vschema "c" "vs" sample_nodes)
    = ((Some "vs", None), after_vschema "c" "vs" sample_nodes).
Proof.
  destruct (SrvVSchema_round_trip (JSON1 := sample_JSON)
              sample_Join sample_Dir sample_Base 8 "c" "vs" sample_nodes
              sample_JSON_reads_back) as (Hget & Hupd & _).
  split; [apply Hget; vm_compute; reflexivity|].
  apply Hupd. vm_compute. reflexivity.
Defined.

(** A second update of the same key needs no create at all. *)
Lemma UpdateSrvKeyspace_overwrites_witness :
  ∃ nodes2,
    UpdateSrvKeyspace (Conn0 := fake_Conn sample_Dir sample_Base)
      (JSON0 := sample_JSON) sample_Join sample_Dir 0 "c" "k" "new"
      (after_update "c" "k" "old" sample_nodes) = Some (None, nodes2) ∧
    GetSrvKeyspace (Conn0 := fake_Conn sample_Dir sample_Base)
      (JSON0 := sample_JSON) sample_Join "c" "k" nodes2
      = ((Some "new", None), nodes2) ∧
    (∀ q, is_Some (nodes2 !! q)
          ↔ is_Some (after_update "c" "k" "old" sample_nodes !! q)).
Proof.
  apply (UpdateSrvKeyspace_overwrites (JSON0 := sample_JSON)
           sample_Join sample_Dir sample_Base 8 0 "c" "k" "old" "new"
           sample_nodes (after_update "c" "k" "old" sample_nodes)
           sample_JSON_reads_back);
    [vm_compute; reflexivity|reflexivity].
Defined.

(** Deleting the keyspace "k" a second time reports it not found. *)
Lemma DeleteSrvKeyspace_not_idempotent_witness :
  DeleteSrvKeyspace (Conn0 := fake_Conn sample_Dir sample_Base) sample_Join "c" "k"
    (after_delete "c" "k" (after_update "c" "k" "desc" sample_nodes))
  = (Some topo_ErrNoNode,
     after_delete "c" "k" (after_update "c" "k" "desc" sample_nodes)).
Proof.
  apply (proj1 (proj2 (DeleteSrvKeyspace_not_idempotent
                         sample_Join sample_Dir sample_Base "c" "k"
                         (after_update "c" "k" "desc" sample_nodes)))).
  vm_compute. reflexivity.
Defined.

(** Writing the keyspace "k" leaves the read of the keyspace "other". *)
Lemma writes_leave_other_keys_witness :
  (GetSrvKeyspace (Conn0 := fake_Conn sample_Dir sample_Base) (JSON0 := sample_JSON)
     sample_Join "c" "other"
     (after_update "c" "k" "desc" (after_update "c" "other" "o" sample_nodes))).1
  = (GetSrvKeyspace (Conn0 := fake_Conn sample_Dir sample_Base)
       (JSON0 := sample_JSON) sample_Join "c" "other"
       (after_update "c" "other" "o" sample_nodes)).1.
Proof.
  refine (proj1 (writes_leave_other_keys (JSON0 := sample_JSON)
                   (JSON1 := sample_JSON) sample_Join sample_Dir sample_Base
                   8 "c" "k" "desc" (after_update "c" "other" "o" sample_nodes)
                   None
                   (after_update "c" "k" "desc"
                      (after_update "c" "other" "o" sample_nodes))
                   (or_introl _)) "c" "other" _).
  - vm_compute. reflexivity.
  - vm_compute. discriminate.
Defined.

(** On the sample tree the keyspace written is the one listed. *)
Lemma UpdateSrvKeyspace_listed_witness :
  ∃ names,
    GetSrvKeyspaceNames (Conn0 := fake_Conn sample_Dir sample_Base)
      sample_Join "c" (after_update "c" "k" "desc" sample_nodes)
      = ((names, None), after_update "c" "k" "desc" sample_nodes) ∧
    "k" ∈ names ∧ StronglySorted String.le names.
Proof.
  apply (UpdateSrvKeyspace_listed (JSON0 := sample_JSON)
           sample_Join sample_Dir sample_Base 8 "c" "k" "desc" sample_nodes
           (after_update "c" "k" "desc" sample_nodes)).
  - vm_compute. reflexivity.
  - vm_compute. reflexivity.
  - vm_compute. discriminate.
  - vm_compute. intros [nd Hnd]. discriminate.
  - vm_compute. reflexivity.
Defined.

(** The root of the sample tree is five levels above the key. *)
Lemma UpdateSrvKeyspace_succeeds_witness :
  ∃ nodes',
    UpdateSrvKeyspace (Conn0 := fake_Conn sample_Dir sample_Base)
      (JSON0 := sample_JSON) sample_Join sample_Dir 8 "c" "k" "desc" sample_nodes
    = Some (None, nodes').
Proof.
  apply (UpdateSrvKeyspace_succeeds sample_Join sample_Dir sample_Base
           (JSON0 := sample_JSON) 8 5 "c" "k" "desc" (String "{" "desc")
           sample_nodes).
  - reflexivity.
  - vm_compute. eexists. reflexivity.
  - lia.
Defined.

End ZktopoFacts.
